(** * Canvas synchronisation engine: conflict resolution, sync queue,
      change detection, canvas state and the sync channel.

    A shallow embedding of the hooks [useBoxSync], [useBoxEventPropagator],
    [useCanvasSync], [useCanvasState], [useCanvasTools] and
    [useBoxSyncChannel].  Mutable refs become fields of explicit state
    records, [Date.now()] becomes a clock that is passed in, and the
    callbacks a hook receives become parameters. *)

From Stdlib Require Import ZArith List Bool Lia Permutation.
From stdpp Require Import base decidable option list strings gmap pretty.

Local Open Scope string_scope.
Local Open Scope list_scope.
Local Open Scope Z_scope.

(** ** JavaScript values *)

Module Js.

(** [x || 0] on an optional number: [undefined] and [0] both give [0]. *)
Definition or_zero (v : option Z) : Z := default 0 v.

(** [x || d] on an optional number: [undefined] and [0] are falsy. *)
Definition num_or (v : option Z) (d : Z) : Z :=
  match v with
  | Some n => if bool_decide (n = 0) then d else n
  | None => d
  end.

(** Truthiness of an optional boolean property. *)
Definition truthy (v : option bool) : bool := default false v.

(** What a call throws when it does not return: a [TypeError] on a
    property read from [undefined], a [ReferenceError] on an identifier
    that is not declared. *)
Inductive Thrown :=
| TypeError (message : string)
| ReferenceError (message : string).

End Js.

(** ** [Map]: insertion-ordered, keyed by string *)

Module JsMap.

Section Ops.
Context {V : Type}.

Definition t := list (string * V).

Definition empty : t := [].

Fixpoint get (k : string) (m : t) : option V :=
  match m with
  | [] => None
  | (k', v) :: r => if decide (k = k') then Some v else get k r
  end.

Definition has (k : string) (m : t) : bool :=
  match get k m with Some _ => true | None => false end.

(** [set] keeps the position of an existing key and appends a new one. *)
Fixpoint set (k : string) (v : V) (m : t) : t :=
  match m with
  | [] => [(k, v)]
  | (k', v') :: r =>
      if decide (k = k') then (k, v) :: r else (k', v') :: set k v r
  end.

Fixpoint delete (k : string) (m : t) : t :=
  match m with
  | [] => []
  | (k', v') :: r =>
      if decide (k = k') then delete k r else (k', v') :: delete k r
  end.

Definition keys (m : t) : list string := map fst m.
Definition values (m : t) : list V := map snd m.

End Ops.

Arguments t : clear implicits.

End JsMap.

(** ** Elements *)

(** The properties of an element other than its id.  Every one of them may
    be absent on a JavaScript object; [geometry] stands for the numeric
    drawing properties (x, y, width, ...). *)
Record Props := mkProps {
  version : option Z;
  isDeleted : option bool;
  lastModified : option Z;
  modifiedBy : option string;
  etype : option string;
  geometry : list (string * Z)
}.

Record Element := mkElement { id : string; body : Props }.

#[global] Instance Props_eq_dec : EqDecision Props.
Proof. solve_decision. Defined.

#[global] Instance Element_eq_dec : EqDecision Element.
Proof. solve_decision. Defined.

Definition noProps : Props :=
  {| version := None; isDeleted := None; lastModified := None;
     modifiedBy := None; etype := None; geometry := [] |}.

(** The object literal [{ id }]. *)
Definition idOnly (i : string) : Element := {| id := i; body := noProps |}.

(** [{ ...p, isDeleted: d }] *)
Definition with_isDeleted (d : bool) (p : Props) : Props :=
  {| version := version p; isDeleted := Some d;
     lastModified := lastModified p; modifiedBy := modifiedBy p;
     etype := etype p; geometry := geometry p |}.

(** [{ ...p, lastModified: t }] *)
Definition with_lastModified (t : Z) (p : Props) : Props :=
  {| version := version p; isDeleted := isDeleted p;
     lastModified := Some t; modifiedBy := modifiedBy p;
     etype := etype p; geometry := geometry p |}.

(** [!el.isDeleted] *)
Definition live (el : Element) : bool := negb (Js.truthy (isDeleted (body el))).

(** ** useBoxSync: conflict resolution and remote changes *)

Module BoxSync.

Inductive ConflictType := version_conflict | simultaneous_edit.
Inductive ConflictResolution := keep_local | merge_properties.

Record Conflict := mkConflict {
  c_type : ConflictType;
  boxId : string;
  localVersion : Z;
  incomingVersion : Z;
  resolution : ConflictResolution
}.

(** [{ boxId, action: 'merged_properties', timestamp }] *)
Record Resolution := mkResolution { r_boxId : string; r_timestamp : Z }.

Record Changes := mkChanges {
  created : list Element;
  updated : list Element;
  deleted : list Element
}.

Record Resolved := mkResolved {
  res_created : list Element;
  res_updated : list Element;
  res_deleted : list Element;
  hasConflicts : bool;
  conflicts : list Conflict;
  resolutions : list Resolution
}.

(** What the callback of [changes.updated.filter] has pushed and kept so
    far. *)
Record Acc := mkAcc {
  kept : list Element;
  acc_conflicts : list Conflict;
  acc_resolutions : list Resolution
}.

Section Resolve.
(** The id of the local user, the value of
    [syncStateRef.current.boxVersions] and the clock read by the callback
    for the box at a given index.  The value is [None] where the object
    in the ref has no [boxVersions] property. *)
Variable userId : option string.
Variable boxVersions : option (gmap string Z).
Variable clock : nat → Z.

(** [syncStateRef.current.boxVersions.get(box.id) || 0]: the call of
    [get] on [undefined] throws. *)
Definition localVersionOf (box : Element) : Js.Thrown + Z :=
  match boxVersions with
  | None =>
      inl (Js.TypeError "Cannot read properties of undefined (reading 'get')")
  | Some table => inr (Js.or_zero (table !! id box))
  end.

Definition incomingVersionOf (box : Element) : Z :=
  Js.or_zero (version (body box)).

(** One call of the filter callback on [box], at index [i]. *)
Definition resolveBox (i : nat) (acc : Acc) (box : Element)
    : Js.Thrown + Acc :=
  match localVersionOf box with
  | inl thrown => inl thrown
  | inr localVersion =>
      let incomingVersion := incomingVersionOf box in
      if bool_decide (incomingVersion < localVersion) then
        inr {| kept := kept acc;
               acc_conflicts := acc_conflicts acc ++
                 [mkConflict version_conflict (id box) localVersion
                    incomingVersion keep_local];
               acc_resolutions := acc_resolutions acc |}
      else if bool_decide (incomingVersion = localVersion)
                && bool_decide (modifiedBy (body box) ≠ userId) then
        inr {| kept := kept acc ++ [box];
               acc_conflicts := acc_conflicts acc ++
                 [mkConflict simultaneous_edit (id box) localVersion
                    incomingVersion merge_properties];
               acc_resolutions := acc_resolutions acc ++
                 [mkResolution (id box) (clock i)] |}
      else
        inr {| kept := kept acc ++ [box];
               acc_conflicts := acc_conflicts acc;
               acc_resolutions := acc_resolutions acc |}
  end.

(** [changes.updated.filter]: a callback that throws ends the loop. *)
Fixpoint resolveFrom (i : nat) (acc : Acc) (boxes : list Element)
    : Js.Thrown + Acc :=
  match boxes with
  | [] => inr acc
  | box :: rest =>
      match resolveBox i acc box with
      | inl thrown => inl thrown
      | inr acc' => resolveFrom (S i) acc' rest
      end
  end.

Definition resolveBoxConflicts (changes : Changes) : Js.Thrown + Resolved :=
  match resolveFrom 0 (mkAcc [] [] []) (updated changes) with
  | inl thrown => inl thrown
  | inr acc =>
      inr {| res_created := created changes;
             res_updated := kept acc;
             res_deleted := deleted changes;
             hasConflicts := bool_decide (0 < length (acc_conflicts acc))%nat;
             conflicts := acc_conflicts acc;
             resolutions := acc_resolutions acc |}
  end.

End Resolve.

(** [syncStateRef.current.boxVersions] in the hook.  The object the ref
    is created with (lines 24-33) has no such property.  [resetBoxSync]
    is the only code that puts a table there, an empty [Map]; nothing
    calls [resetBoxSync] and nothing adds an entry to the table. *)
Definition boxVersionsAsCreated : option (gmap string Z) := None.
Definition boxVersionsAfterReset : option (gmap string Z) := Some ∅.

(** *** Remote events *)

(** A sync event as [propagateChanges] builds it. *)
Record SyncEvent := mkSyncEvent {
  elementId : string;
  changeType : string;
  boxProperties : Props;
  timestamp : option Z;
  ev_userId : option string;
  ev_noteId : option string
}.

(** [new Map(currentElements.map(el => [el.id, el]))] *)
Definition ofElements (els : list Element) : JsMap.t Element :=
  fold_left (λ m el, JsMap.set (id el) el m) els JsMap.empty.

(** The body of the [forEach] in [applyRemoteChanges]; [now] is the value
    [Date.now()] has when this event is handled. *)
Definition applyEvent (now : Z) (elementMap : JsMap.t Element)
    (event : SyncEvent) : JsMap.t Element :=
  if bool_decide (changeType event = "create")
     || bool_decide (changeType event = "update") then
    JsMap.set (elementId event)
      {| id := elementId event;
         body := with_lastModified
                   (Js.num_or (lastModified (boxProperties event)) now)
                   (with_isDeleted false (boxProperties event)) |}
      elementMap
  else if bool_decide (changeType event = "delete") then
    match JsMap.get (elementId event) elementMap with
    | Some existingElement =>
        JsMap.set (elementId event)
          {| id := id existingElement;
             body := with_isDeleted true (body existingElement) |}
          elementMap
    | None => elementMap
    end
  else elementMap.

Fixpoint applyEvents (clock : nat → Z) (i : nat)
    (elementMap : JsMap.t Element) (events : list SyncEvent)
    : JsMap.t Element :=
  match events with
  | [] => elementMap
  | event :: rest =>
      applyEvents clock (S i) (applyEvent (clock i) elementMap event) rest
  end.

(** [elementMap] as it is just before [applyRemoteChanges] returns. *)
Definition remoteElementMap (clock : nat → Z) (currentElements : list Element)
    (remoteEvents : list SyncEvent) : JsMap.t Element :=
  applyEvents clock 0 (ofElements currentElements) remoteEvents.

Definition applyRemoteChanges (clock : nat → Z)
    (currentElements : list Element) (remoteEvents : list SyncEvent)
    : list Element :=
  filter (λ el, live el)
    (JsMap.values (remoteElementMap clock currentElements remoteEvents)).

(** Keys are distinct and every entry is filed under the id of its
    element. *)
Definition filed (m : JsMap.t Element) : Prop :=
  NoDup (JsMap.keys m) ∧ ∀ k el, (k, el) ∈ m → id el = k.

(** The element filed under [i], if any, is marked deleted; an event
    revives [i] when it creates or updates it. *)
Definition dead (i : string) (m : JsMap.t Element) : Prop :=
  match JsMap.get i m with
  | Some el => Js.truthy (isDeleted (body el)) = true
  | None => True
  end.

Definition revives (i : string) (e : SyncEvent) : Prop :=
  elementId e = i ∧ (changeType e = "create" ∨ changeType e = "update").

End BoxSync.

(** ** useBoxEventPropagator: the filter in front of the remote-update
       callback *)

Module Propagator.
Import BoxSync.

(** [resolveConflicts] returns the remote event or [null]. *)
Definition resolveConflicts (enableConflictResolution : bool)
    (localElement : Element) (remoteEvent : SyncEvent) : option SyncEvent :=
  if negb enableConflictResolution then Some remoteEvent
  else
    let localTime := Js.or_zero (lastModified (body localElement)) in
    let remoteTime := Js.or_zero (timestamp remoteEvent) in
    if bool_decide (remoteTime > localTime) then Some remoteEvent
    else None.

(** The callback of [events.filter] in [handleRemoteUpdate]. *)
Definition passes (enableConflictResolution : bool)
    (canvasElements : list Element) (event : SyncEvent) : bool :=
  if bool_decide (changeType event = "delete") then true
  else
    match find (λ el, bool_decide (id el = elementId event))
            canvasElements with
    | None => true
    | Some localElement =>
        match resolveConflicts enableConflictResolution localElement event with
        | Some _ => true
        | None => false
        end
    end.

Definition resolvedEvents (enableConflictResolution : bool)
    (canvasElements : list Element) (events : list SyncEvent)
    : list SyncEvent :=
  filter (λ event, passes enableConflictResolution canvasElements event)
    events.

(** [handleRemoteUpdate] returns what it hands to [onRemoteUpdate], or
    [None] when it does not call it.  [hasOnRemoteUpdate] tells whether
    the hook was given that callback. *)
Definition handleRemoteUpdate (hasOnRemoteUpdate : bool)
    (enableConflictResolution : bool) (canvasElements : list Element)
    (events : list SyncEvent) : option (list SyncEvent) :=
  if negb hasOnRemoteUpdate then None
  else
    let resolved :=
      resolvedEvents enableConflictResolution canvasElements events in
    if bool_decide (0 < length resolved)%nat then Some resolved else None.

(** A remote batch from arrival to the element list the parent is
    given: [handleRemoteUpdate] feeds the regular branch of the callback
    of [useBoxSync], whose [onElementsChange] receives the result of
    [applyRemoteChanges].  When nothing is forwarded the elements stay
    as they are. *)
Definition deliver (enableConflictResolution : bool) (clock : nat → Z)
    (canvasElements : list Element) (events : list SyncEvent)
    : list Element :=
  match handleRemoteUpdate true enableConflictResolution canvasElements
          events with
  | Some resolved => applyRemoteChanges clock canvasElements resolved
  | None => canvasElements
  end.

End Propagator.

(** ** useCanvasSync: the sync queue *)

Module CanvasSync.

Record Change := mkChange {
  ch_id : string;
  ch_elementId : string;
  ch_type : string;
  ch_element : Element;
  ch_timestamp : Z
}.

Record SyncPayload := mkSyncPayload {
  changed : list Element;
  removed : list string;
  p_timestamp : Z;
  p_userId : option string;
  p_noteId : option string
}.

(** What a pending [setTimeout] will run. *)
Inductive TimerAction :=
| Flush
| Requeue (changes : list Change).

Record Timer := mkTimer {
  handle : nat;
  delay : Z;
  action : TimerAction
}.

(** A flush that has called [onSync] and waits for it (and for the
    broadcast) to settle. *)
Record InFlight := mkInFlight {
  if_changes : list Change;
  if_payload : SyncPayload
}.

Record Config := mkConfig {
  noteId : option string;
  userId : option string;
  hasBroadcastChannel : bool;
  hasOnSync : bool;
  debounceMs : Z;
  maxBatchSize : nat
}.

(** The refs of the hook, the timers it has armed and the calls it has
    made to its two collaborators. *)
Record State := mkState {
  syncQueue : list Change;
  syncTimeout : option nat;
  lastSync : Z;
  pendingChanges : gmap string Change;
  syncInProgress : bool;
  inFlight : option InFlight;
  timers : list Timer;
  nextHandle : nat;
  synced : list SyncPayload;
  broadcasts : list SyncPayload
}.

Definition initial (now : Z) : State :=
  {| syncQueue := []; syncTimeout := None; lastSync := now;
     pendingChanges := ∅; syncInProgress := false; inFlight := None;
     timers := []; nextHandle := 1; synced := []; broadcasts := [] |}.

Definition with_queue (q : list Change) (p : gmap string Change)
    (st : State) : State :=
  {| syncQueue := q; syncTimeout := syncTimeout st; lastSync := lastSync st;
     pendingChanges := p; syncInProgress := syncInProgress st;
     inFlight := inFlight st; timers := timers st;
     nextHandle := nextHandle st; synced := synced st;
     broadcasts := broadcasts st |}.

(** [`${element.id}-${element.version || 0}-${Date.now()}`] *)
Definition generateChangeId (element : Element) (now : Z) : string :=
  id element +:+ "-" +:+ pretty (Js.or_zero (version (body element)))
    +:+ "-" +:+ pretty now.

Definition clearTimeout (h : option nat) (ts : list Timer) : list Timer :=
  match h with
  | Some n => filter (λ t, handle t ≠ n) ts
  | None => ts
  end.

Definition setTimeout (a : TimerAction) (d : Z) (st : State) : State * nat :=
  ({| syncQueue := syncQueue st; syncTimeout := syncTimeout st;
      lastSync := lastSync st; pendingChanges := pendingChanges st;
      syncInProgress := syncInProgress st; inFlight := inFlight st;
      timers := timers st ++ [mkTimer (nextHandle st) d a];
      nextHandle := S (nextHandle st); synced := synced st;
      broadcasts := broadcasts st |}, nextHandle st).

Definition scheduleSync (cfg : Config) (st : State) : State :=
  let st1 :=
    {| syncQueue := syncQueue st; syncTimeout := syncTimeout st;
       lastSync := lastSync st; pendingChanges := pendingChanges st;
       syncInProgress := syncInProgress st; inFlight := inFlight st;
       timers := clearTimeout (syncTimeout st) (timers st);
       nextHandle := nextHandle st; synced := synced st;
       broadcasts := broadcasts st |} in
  let '(st2, h) := setTimeout Flush (debounceMs cfg) st1 in
  {| syncQueue := syncQueue st2; syncTimeout := Some h;
     lastSync := lastSync st2; pendingChanges := pendingChanges st2;
     syncInProgress := syncInProgress st2; inFlight := inFlight st2;
     timers := timers st2; nextHandle := nextHandle st2;
     synced := synced st2; broadcasts := broadcasts st2 |}.

(** The elements of [l], the part of [whole] that starts at index
    [offset], that sit at the first index of [whole] holding their key. *)
Definition firstsFrom {A K} `{EqDecision K} (key : A → K)
    (whole : list A) (offset : nat) (l : list A) : list A :=
  omap (λ x : option A, x)
    (imap (λ index el,
             if bool_decide
                  (fst <$> list_find (λ e, key e = key el) whole
                   = Some (offset + index)%nat)
             then Some el else None) l).

(** [arr.filter((x, index, arr) => i(x) === index)], where [i(x)] is the
    first index of [arr] that holds the key of [x]. *)
Definition uniqueBy {A K} `{EqDecision K} (key : A → K) (arr : list A)
    : list A :=
  firstsFrom key arr 0 arr.

(** [arr.filter((el, index, arr) =>
       arr.findIndex(e => e.id === el.id) === index)] *)
Definition uniqueById (arr : list Element) : list Element := uniqueBy id arr.

(** [arr.filter((id, index, arr) => arr.indexOf(id) === index)] *)
Definition uniqueIds (arr : list string) : list string :=
  uniqueBy (λ i, i) arr.

Definition changedOf (changes : list Change) : list Element :=
  uniqueById
    (map ch_element (filter (λ c, ch_type c = "update") changes)).

Definition removedOf (changes : list Change) : list string :=
  uniqueIds
    (map (λ c, id (ch_element c))
       (filter (λ c, ch_type c = "remove") changes)).

(** [changes.forEach(change => pendingChangesRef.current.delete(change.id))] *)
Definition forget (changes : list Change) (p : gmap string Change)
    : gmap string Change :=
  fold_left (λ p change, delete (ch_id change) p) changes p.

(** [processSyncQueue] up to its first [await].  With neither a sync
    callback nor a channel there is nothing to wait for and the flush
    completes here. *)
Definition processSyncQueue (cfg : Config) (now : Z) (st : State) : State :=
  if syncInProgress st || bool_decide (length (syncQueue st) = 0%nat) then st
  else
    let changes := syncQueue st in
    let changed := changedOf changes in
    let removed := removedOf changes in
    if bool_decide (length changed = 0%nat)
       && bool_decide (length removed = 0%nat) then
      {| syncQueue := []; syncTimeout := syncTimeout st;
         lastSync := lastSync st; pendingChanges := pendingChanges st;
         syncInProgress := false; inFlight := None; timers := timers st;
         nextHandle := nextHandle st; synced := synced st;
         broadcasts := broadcasts st |}
    else
      let syncPayload :=
        mkSyncPayload changed removed now (userId cfg) (noteId cfg) in
      let waits := hasOnSync cfg || hasBroadcastChannel cfg in
      {| syncQueue := [];
         syncTimeout := syncTimeout st;
         lastSync := if waits then lastSync st else now;
         pendingChanges := forget changes (pendingChanges st);
         syncInProgress := waits;
         inFlight :=
           if waits then Some (mkInFlight changes syncPayload) else None;
         timers := timers st;
         nextHandle := nextHandle st;
         synced :=
           if hasOnSync cfg then synced st ++ [syncPayload] else synced st;
         broadcasts := broadcasts st |}.

(** How the awaited calls of one flush end. *)
Inductive Outcome :=
| Delivered
| OnSyncThrew
| BroadcastThrew.

(** [Math.min(1000, Math.pow(2, syncQueueRef.current.length) * 100)] *)
Definition retryDelay (st : State) : Z :=
  Z.min 1000 (2 ^ Z.of_nat (length (syncQueue st)) * 100).

(** The rest of [processSyncQueue] once the awaited calls have settled:
    [now] is the clock then, and the queue is whatever has been queued in
    the meantime. *)
Definition settle (cfg : Config) (o : Outcome) (now : Z) (st : State) : State :=
  match inFlight st with
  | None => st
  | Some fl =>
      let sent :=
        match o with
        | OnSyncThrew => broadcasts st
        | _ => if hasBroadcastChannel cfg
               then broadcasts st ++ [if_payload fl] else broadcasts st
        end in
      let st1 :=
        {| syncQueue := syncQueue st; syncTimeout := syncTimeout st;
           lastSync := match o with Delivered => now | _ => lastSync st end;
           pendingChanges := pendingChanges st;
           syncInProgress := false; inFlight := None;
           timers := timers st; nextHandle := nextHandle st;
           synced := synced st; broadcasts := sent |} in
      match o with
      | Delivered => st1
      | _ => fst (setTimeout (Requeue (if_changes fl)) (retryDelay st) st1)
      end
  end.

(** The callback of the retry timer. *)
Definition requeue (cfg : Config) (changes : list Change) (st : State)
    : State :=
  let st1 :=
    fold_left
      (λ st change,
         if bool_decide (is_Some (pendingChanges st !! ch_id change)) then st
         else with_queue (syncQueue st ++ [change])
                (<[ch_id change := change]> (pendingChanges st)) st)
      changes st in
  scheduleSync cfg st1.

(** [queueChange(element, type)]; [now] is read by [generateChangeId]
    and [now'] by the change literal. *)
Definition queueChange (cfg : Config) (now now' : Z) (element : Element)
    (type : string) (st : State) : State :=
  let changeId := generateChangeId element now in
  if bool_decide (is_Some (pendingChanges st !! changeId)) then st
  else
    let change :=
      {| ch_id := changeId;
         ch_elementId := id element;
         ch_type := type;
         ch_element :=
           if bool_decide (type = "remove") then idOnly (id element)
           else element;
         ch_timestamp := now' |} in
    let st1 :=
      with_queue (syncQueue st ++ [change])
        (<[changeId := change]> (pendingChanges st)) st in
    if bool_decide (maxBatchSize cfg ≤ length (syncQueue st1))%nat
    then processSyncQueue cfg now' st1
    else scheduleSync cfg st1.

Definition forceSync (cfg : Config) (now : Z) (st : State) : State :=
  processSyncQueue cfg now
    {| syncQueue := syncQueue st; syncTimeout := syncTimeout st;
       lastSync := lastSync st; pendingChanges := pendingChanges st;
       syncInProgress := syncInProgress st; inFlight := inFlight st;
       timers := clearTimeout (syncTimeout st) (timers st);
       nextHandle := nextHandle st; synced := synced st;
       broadcasts := broadcasts st |}.

(** The timer with handle [h] fires: it leaves the timer list and its
    callback runs. *)
Definition fire (cfg : Config) (h : nat) (now : Z) (st : State) : State :=
  match find (λ t, bool_decide (handle t = h)) (timers st) with
  | None => st
  | Some t =>
      let st1 :=
        {| syncQueue := syncQueue st; syncTimeout := syncTimeout st;
           lastSync := lastSync st; pendingChanges := pendingChanges st;
           syncInProgress := syncInProgress st; inFlight := inFlight st;
           timers := clearTimeout (Some h) (timers st);
           nextHandle := nextHandle st; synced := synced st;
           broadcasts := broadcasts st |} in
      match action t with
      | Flush => processSyncQueue cfg now st1
      | Requeue changes => requeue cfg changes st1
      end
  end.

(** A whole flush whose awaited calls settle before anything else runs. *)
Definition flush (cfg : Config) (o : Outcome) (now : Z) (st : State) : State :=
  settle cfg o now (processSyncQueue cfg now st).

End CanvasSync.

(** ** useCanvasTools: the local tool state *)

Module CanvasTools.

Definition ToolOptions := list (string * string).

Record ToolRef := mkToolRef {
  ref_selectedTool : string;
  ref_toolOptions : ToolOptions;
  lastToolChange : Z
}.

Record Tools := mkTools {
  selectedTool : string;
  toolOptions : ToolOptions;
  toolStateRef : ToolRef
}.

Definition initial (now : Z) : Tools :=
  {| selectedTool := "selection"; toolOptions := [];
     toolStateRef := mkToolRef "selection" [] now |}.

Definition changeTool (now : Z) (newTool : string) (options : ToolOptions)
    (t : Tools) : Tools :=
  if bool_decide (now - lastToolChange (toolStateRef t) < 50) then t
  else
    {| selectedTool := newTool; toolOptions := options;
       toolStateRef := mkToolRef newTool options now |}.

End CanvasTools.

(** ** useCanvasState: change detection and the canvas content *)

Module CanvasState.

Definition Files := list (string * string).

(** [{ ...element, _version: element.version || 0 }] *)
Record Stored := mkStored { element : Element; _version : Z }.

Record Content := mkContent {
  elements : list Element;
  files : Files;
  content_version : nat
}.

Record ChangeSet := mkChangeSet {
  cs_updated : list Element;
  cs_removed : list Element;
  cs_added : list Element
}.

Record State := mkState {
  canvasContent : Content;
  contentVersion : nat;
  elementMap : JsMap.t Stored;
  tools : CanvasTools.Tools;
  sync : CanvasSync.State
}.

Definition initial (now : Z) : State :=
  {| canvasContent := mkContent [] [] 0; contentVersion := 0;
     elementMap := JsMap.empty; tools := CanvasTools.initial now;
     sync := CanvasSync.initial now |}.

Definition store (e : Element) : Stored :=
  {| element := e; _version := Js.or_zero (version (body e)) |}.

(** The map is cleared and refilled. *)
Definition initializeElementMap (els : list Element) : JsMap.t Stored :=
  fold_left (λ m e, JsMap.set (id e) (store e) m) els JsMap.empty.

(** The callback of the first [forEach] over [newElements] in
    [detectChanges]. *)
Definition classify (elementMap : JsMap.t Stored) (changes : ChangeSet)
    (e : Element) : ChangeSet :=
  match JsMap.get (id e) elementMap with
  | None =>
      {| cs_updated := cs_updated changes; cs_removed := cs_removed changes;
         cs_added := cs_added changes ++ [e] |}
  | Some existing =>
      if bool_decide (_version existing ≠ Js.or_zero (version (body e))) then
        {| cs_updated := cs_updated changes ++ [e];
           cs_removed := cs_removed changes;
           cs_added := cs_added changes |}
      else changes
  end.

(** The callback of [elementMapRef.current.forEach]. *)
Definition classifyRemoved (newElementMap : JsMap.t Element)
    (changes : ChangeSet) (entry : string * Stored) : ChangeSet :=
  if JsMap.has (fst entry) newElementMap then changes
  else
    {| cs_updated := cs_updated changes;
       cs_removed := cs_removed changes ++ [idOnly (fst entry)];
       cs_added := cs_added changes |}.

Definition detectChanges (elementMap : JsMap.t Stored)
    (newElements : list Element) : ChangeSet :=
  let newElementMap :=
    fold_left (λ m e, JsMap.set (id e) e m) newElements JsMap.empty in
  let changes :=
    fold_left (classify elementMap) newElements (mkChangeSet [] [] []) in
  fold_left (classifyRemoved newElementMap) elementMap changes.

(** The two tests of [classify], as predicates on the new element. *)
Definition isAdded (elementMap : JsMap.t Stored) (e : Element) : bool :=
  match JsMap.get (id e) elementMap with
  | None => true
  | Some _ => false
  end.

Definition isUpdated (elementMap : JsMap.t Stored) (e : Element) : bool :=
  match JsMap.get (id e) elementMap with
  | None => false
  | Some existing =>
      bool_decide (_version existing ≠ Js.or_zero (version (body e)))
  end.

(** The last element of a list that has id [i]. *)
Definition lastWithId (i : string) (els : list Element) : option Element :=
  last (filter (λ e, id e = i) els).

(** The [i]-th [queueChange] of one call reads the clock pair [clock i]. *)
Fixpoint queueAll (cfg : CanvasSync.Config) (clock : nat → Z * Z) (i : nat)
    (type : string) (els : list Element) (s : CanvasSync.State)
    : CanvasSync.State * nat :=
  match els with
  | [] => (s, i)
  | e :: rest =>
      queueAll cfg clock (S i) type rest
        (CanvasSync.queueChange cfg (fst (clock i)) (snd (clock i)) e type s)
  end.

Definition updateCanvasContent (cfg : CanvasSync.Config) (clock : nat → Z * Z)
    (els : list Element) (fs : Files) (st : State)
    : State * option ChangeSet :=
  let changes := detectChanges (elementMap st) els in
  if bool_decide (length (cs_updated changes) = 0%nat)
     && bool_decide (length (cs_added changes) = 0%nat)
     && bool_decide (length (cs_removed changes) = 0%nat)
  then (st, None)
  else
    let v := S (contentVersion st) in
    let '(s1, i1) :=
      queueAll cfg clock 0 "update" (cs_updated changes) (sync st) in
    let '(s2, i2) := queueAll cfg clock i1 "update" (cs_added changes) s1 in
    let '(s3, _) := queueAll cfg clock i2 "remove" (cs_removed changes) s2 in
    ({| canvasContent := mkContent els fs v; contentVersion := v;
        elementMap := initializeElementMap els;
        tools := tools st; sync := s3 |}, Some changes).

(** The argument of [applyExternalUpdate]; a missing [changed] or
    [removed] defaults to the empty array. *)
Record UpdatePayload := mkUpdatePayload {
  up_changed : option (list Element);
  up_removed : option (list string)
}.

(** The local [elementMap] of [applyExternalUpdate] after both loops. *)
Definition externalElementMap (currentElements : list Element)
    (removed : list string) (changed : list Element) : JsMap.t Element :=
  let elementMap :=
    fold_left (λ m e, JsMap.set (id e) e m) currentElements JsMap.empty in
  let elementMap := fold_left (λ m i, JsMap.delete i m) removed elementMap in
  fold_left (λ m e, JsMap.set (id e) e m) changed elementMap.

Definition applyExternalUpdate (updatePayload : UpdatePayload) (st : State)
    : State * (list Element * Files) :=
  let changed := default [] (up_changed updatePayload) in
  let removed := default [] (up_removed updatePayload) in
  let updatedElements :=
    JsMap.values
      (externalElementMap (elements (canvasContent st)) removed changed) in
  let v := S (contentVersion st) in
  let st' :=
    {| canvasContent :=
         mkContent updatedElements (files (canvasContent st)) v;
       contentVersion := v;
       elementMap := initializeElementMap updatedElements;
       tools := tools st;
       sync := sync st |} in
  (st', (updatedElements, files (canvasContent st'))).

(** [changeTool] of the state manager: the tool hook's [changeTool]. *)
Definition handleToolChange (now : Z) (toolType : string)
    (options : CanvasTools.ToolOptions) (st : State) : State :=
  {| canvasContent := canvasContent st; contentVersion := contentVersion st;
     elementMap := elementMap st;
     tools := CanvasTools.changeTool now toolType options (tools st);
     sync := sync st |}.

End CanvasState.

(** ** useBoxSyncChannel: connection errors and reconnection *)

Module SyncChannel.

Inductive Status := disconnected | connecting | connected | error | failed.

Record Config := mkConfig {
  heartbeatInterval : Z;
  reconnectInterval : Z;
  maxReconnectAttempts : nat
}.

Definition defaults : Config :=
  {| heartbeatInterval := 30000; reconnectInterval := 5000;
     maxReconnectAttempts := 5 |}.

(** [connectionStateRef], [channelRef], the status cell and the delays
    of the reconnection timers armed so far, oldest first. *)
Record State := mkState {
  isConnected : bool;
  reconnectAttempts : nat;
  connectionId : option string;
  hasChannel : bool;
  connectionStatus : Status;
  scheduled : list Z
}.

Definition initial : State :=
  {| isConnected := false; reconnectAttempts := 0; connectionId := None;
     hasChannel := false; connectionStatus := disconnected;
     scheduled := [] |}.

(** A piece of a callback: it changes the state and either ends with a
    value or throws; what has been written before a throw stays. *)
Definition M (A : Type) : Type := State → State * (Js.Thrown + A).

#[export] Instance M_ret : MRet M := λ A a st, (st, inr a).

#[export] Instance M_bind : MBind M := λ A B k m st,
  match m st with
  | (st', inl thrown) => (st', inl thrown)
  | (st', inr a) => k a st'
  end.

Definition throw {A} (thrown : Js.Thrown) : M A := λ st, (st, inl thrown).

Definition read {A} (field : State → A) : M A := λ st, (st, inr (field st)).

Definition write (f : State → State) : M unit := λ st, (f st, inr tt).

(** [connectionStateRef.current.isConnected = b] *)
Definition set_isConnected (b : bool) : M unit :=
  write (λ st,
    {| isConnected := b; reconnectAttempts := reconnectAttempts st;
       connectionId := connectionId st; hasChannel := hasChannel st;
       connectionStatus := connectionStatus st; scheduled := scheduled st |}).

Definition setConnectionStatus (status : Status) : M unit :=
  write (λ st,
    {| isConnected := isConnected st;
       reconnectAttempts := reconnectAttempts st;
       connectionId := connectionId st; hasChannel := hasChannel st;
       connectionStatus := status; scheduled := scheduled st |}).

(** [connectionStateRef.current.reconnectAttempts++] *)
Definition incrementReconnectAttempts : M unit :=
  write (λ st,
    {| isConnected := isConnected st;
       reconnectAttempts := S (reconnectAttempts st);
       connectionId := connectionId st; hasChannel := hasChannel st;
       connectionStatus := connectionStatus st; scheduled := scheduled st |}).

(** [setTimeout(() => { disconnect(); connect() }, delay)] *)
Definition setTimeout (delay : Z) : M unit :=
  write (λ st,
    {| isConnected := isConnected st;
       reconnectAttempts := reconnectAttempts st;
       connectionId := connectionId st; hasChannel := hasChannel st;
       connectionStatus := connectionStatus st;
       scheduled := scheduled st ++ [delay] |}).

(** [setLastSyncError] is called by [handleConnectionError], but the
    module declares no such name: it is no parameter of the hook, no
    state setter (lines 26-28) and no import.  Evaluating the call
    throws. *)
Definition setLastSyncError (message : string) : M unit :=
  throw (Js.ReferenceError "setLastSyncError is not defined").

(** [reconnectInterval * Math.pow(2, reconnectAttempts - 1)], read after
    the counter has been incremented. *)
Definition backoff (cfg : Config) (attempts : nat) : Z :=
  reconnectInterval cfg * 2 ^ (Z.of_nat attempts - 1).

Definition handleConnectionError (cfg : Config) (message : string)
    : M unit :=
  set_isConnected false;;
  setConnectionStatus error;;
  setLastSyncError message;;
  attempts ← read reconnectAttempts;
  if bool_decide (attempts < maxReconnectAttempts cfg)%nat then
    incrementReconnectAttempts;;
    attempts ← read reconnectAttempts;
    setTimeout (backoff cfg attempts)
  else
    setConnectionStatus failed.

(** [disconnect], run to its end. *)
Definition disconnect (st : State) : State :=
  {| isConnected := false; reconnectAttempts := reconnectAttempts st;
     connectionId := None; hasChannel := false;
     connectionStatus := disconnected; scheduled := scheduled st |}.

(** [connect] up to the subscription request; it returns at once when a
    channel is already held. *)
Definition connect (newId : string) (st : State) : State :=
  if hasChannel st then st
  else
    {| isConnected := isConnected st;
       reconnectAttempts := reconnectAttempts st;
       connectionId := Some newId; hasChannel := true;
       connectionStatus := connecting; scheduled := scheduled st |}.

(** The subscription callback on ['SUBSCRIBED']. *)
Definition subscribed (st : State) : State :=
  {| isConnected := true; reconnectAttempts := 0;
     connectionId := connectionId st; hasChannel := hasChannel st;
     connectionStatus := connected; scheduled := scheduled st |}.

(** What can happen to the channel.  A connection error is a call of
    [handleConnectionError], from the subscription callback, the
    heartbeat or the health check; what it throws goes to that caller,
    what it has written stays. *)
Inductive Event :=
| ConnectionError (message : string)
| CallerConnect (newId : string)
| CallerDisconnect
| Subscribed.

Definition step (cfg : Config) (st : State) (e : Event) : State :=
  match e with
  | ConnectionError message => (handleConnectionError cfg message st).1
  | CallerConnect newId => connect newId st
  | CallerDisconnect => disconnect st
  | Subscribed => subscribed st
  end.

Definition run (cfg : Config) (st : State) (trace : list Event) : State :=
  fold_left (step cfg) trace st.

End SyncChannel.

(** * Concrete inputs *)

(** An update batch that holds one box, b1 at version 1, modified by
    bob; the local user is alice. *)
Definition c1_user : option string := Some "alice".
Definition c1_box : Element :=
  {| id := "b1";
     body := {| version := Some 1; isDeleted := None; lastModified := Some 10;
                modifiedBy := Some "bob"; etype := Some "rectangle";
                geometry := [("x", 100)] |} |}.
Definition c1_changes : BoxSync.Changes :=
  {| BoxSync.created := []; BoxSync.updated := [c1_box];
     BoxSync.deleted := [] |}.

(** An update of element e1 as [propagateChanges] builds it: it sets the
    x-coordinate to [x] and was sent by [author] at time [sent]. *)
Definition c2_event (x : Z) (sent : Z) (author : string) : BoxSync.SyncEvent :=
  {| BoxSync.elementId := "e1"; BoxSync.changeType := "update";
     BoxSync.boxProperties :=
       {| version := None; isDeleted := None; lastModified := None;
          modifiedBy := None; etype := None; geometry := [("x", x)] |};
     BoxSync.timestamp := Some sent; BoxSync.ev_userId := Some author;
     BoxSync.ev_noteId := Some "n1" |}.

(** A local element edited at time 500, a remote delete of it sent at
    time 10, and an update of it sent at time 20. *)
Definition c10_local : Element :=
  {| id := "e1";
     body := {| version := Some 7; isDeleted := None; lastModified := Some 500;
                modifiedBy := Some "alice"; etype := Some "rectangle";
                geometry := [("x", 42)] |} |}.
Definition c10_delete : BoxSync.SyncEvent :=
  {| BoxSync.elementId := "e1"; BoxSync.changeType := "delete";
     BoxSync.boxProperties := noProps;
     BoxSync.timestamp := Some 10; BoxSync.ev_userId := Some "bob";
     BoxSync.ev_noteId := Some "n1" |}.
(** The same update with a version among its properties. *)
Definition c2_versioned (v x sent : Z) (author : string)
    : BoxSync.SyncEvent :=
  {| BoxSync.elementId := "e1"; BoxSync.changeType := "update";
     BoxSync.boxProperties :=
       {| version := Some v; isDeleted := None; lastModified := None;
          modifiedBy := None; etype := None; geometry := [("x", x)] |};
     BoxSync.timestamp := Some sent; BoxSync.ev_userId := Some author;
     BoxSync.ev_noteId := Some "n1" |}.
Definition c8_late_update : BoxSync.SyncEvent := c2_event 1 20 "bob".

(** A canvas state whose content is the single element [c10_local]. *)
Definition c8_state : CanvasState.State :=
  {| CanvasState.canvasContent := CanvasState.mkContent [c10_local] [] 1;
     CanvasState.contentVersion := 1;
     CanvasState.elementMap := CanvasState.initializeElementMap [c10_local];
     CanvasState.tools := CanvasTools.initial 0;
     CanvasState.sync := CanvasSync.initial 0 |}.

(** The sync queue with its default settings and a sync callback. *)
Definition q_cfg : CanvasSync.Config :=
  {| CanvasSync.noteId := Some "n1"; CanvasSync.userId := Some "alice";
     CanvasSync.hasBroadcastChannel := false; CanvasSync.hasOnSync := true;
     CanvasSync.debounceMs := 50; CanvasSync.maxBatchSize := 100 |}.

(** Element e1 at version [v] with x-coordinate [x]. *)
Definition q_elem (v x : Z) : Element :=
  {| id := "e1";
     body := {| version := Some v; isDeleted := None; lastModified := None;
                modifiedBy := None; etype := Some "rectangle";
                geometry := [("x", x)] |} |}.

(** Element e1 queued at version 1 at time 1000. *)
Definition q_once : CanvasSync.State :=
  CanvasSync.queueChange q_cfg 1000 1000 (q_elem 1 10) "update"
    (CanvasSync.initial 0).

(** Two edits of e1 queued within the debounce window: version 1 at time
    1000 and version 2 at time 1001. *)
Definition q_burst : CanvasSync.State :=
  CanvasSync.queueChange q_cfg 1001 1001 (q_elem 2 20) "update" q_once.

(** The debounce timer of [q_burst] fires at time 1050. *)
Definition q_burst_flushed : CanvasSync.State :=
  CanvasSync.fire q_cfg 2 1050 q_burst.

(** A flush of [q_once] whose sync callback throws, the retry timer
    running, and the next flush failing in the same way. *)
Definition q_failed_once : CanvasSync.State :=
  CanvasSync.settle q_cfg CanvasSync.OnSyncThrew 1060
    (CanvasSync.fire q_cfg 1 1050 q_once).
Definition q_requeued : CanvasSync.State :=
  CanvasSync.fire q_cfg 2 1160 q_failed_once.
Definition q_failed_twice : CanvasSync.State :=
  CanvasSync.settle q_cfg CanvasSync.OnSyncThrew 1220
    (CanvasSync.fire q_cfg 3 1210 q_requeued).

(** The same first failure, with four other elements queued while the
    sync callback was running. *)
Definition q_other (i : string) : Element :=
  {| id := i;
     body := {| version := Some 1; isDeleted := None; lastModified := None;
                modifiedBy := None; etype := Some "rectangle";
                geometry := [] |} |}.
Definition q_failed_busy : CanvasSync.State :=
  CanvasSync.settle q_cfg CanvasSync.OnSyncThrew 1060
    (CanvasSync.queueChange q_cfg 1054 1054 (q_other "e5") "update"
       (CanvasSync.queueChange q_cfg 1053 1053 (q_other "e4") "update"
          (CanvasSync.queueChange q_cfg 1052 1052 (q_other "e3") "update"
             (CanvasSync.queueChange q_cfg 1051 1051 (q_other "e2") "update"
                (CanvasSync.fire q_cfg 1 1050 q_once))))).

(** The delay and the batch of every retry timer that is armed. *)
Definition retries (st : CanvasSync.State) : list (Z * list string) :=
  omap (λ t, match CanvasSync.action t with
             | CanvasSync.Requeue changes =>
                 Some (CanvasSync.delay t, CanvasSync.ch_id <$> changes)
             | CanvasSync.Flush => None
             end)
    (CanvasSync.timers st).

(** The elements of the modification test of the repository: element 1
    without a version, before and after it is moved. *)
Definition c9_before : Element :=
  {| id := "1";
     body := {| version := None; isDeleted := None; lastModified := None;
                modifiedBy := None; etype := Some "rectangle";
                geometry := [("x", 100); ("y", 100)] |} |}.
Definition c9_after : Element :=
  {| id := "1";
     body := {| version := None; isDeleted := None; lastModified := None;
                modifiedBy := None; etype := Some "rectangle";
                geometry := [("x", 150); ("y", 150)] |} |}.
Definition c9_clock : nat → Z * Z :=
  λ i, (1000 + Z.of_nat i, 1000 + Z.of_nat i).
Definition c9_state : CanvasState.State :=
  fst (CanvasState.updateCanvasContent q_cfg c9_clock [c9_before] []
         (CanvasState.initial 0)).

(** A canvas state with two elements and the rectangle tool selected,
    and an external update that removes one element and brings another. *)
Definition c7_state : CanvasState.State :=
  CanvasState.handleToolChange 100 "rectangle" [("strokeColor", "#ff0000")]
    (fst (CanvasState.updateCanvasContent q_cfg c9_clock
            [c9_before; q_elem 1 10] [] (CanvasState.initial 0))).
Definition c7_payload : CanvasState.UpdatePayload :=
  {| CanvasState.up_changed := Some [q_other "e9"];
     CanvasState.up_removed := Some ["1"] |}.

(** Five connection errors in a row on a channel that [connect] has
    opened. *)
Definition c6_five_failures : list SyncChannel.Event :=
  [SyncChannel.CallerConnect "c1";
   SyncChannel.ConnectionError "e1"; SyncChannel.ConnectionError "e2";
   SyncChannel.ConnectionError "e3"; SyncChannel.ConnectionError "e4";
   SyncChannel.ConnectionError "e5"].

(** * Runs of the sync queue *)

Module QueueRun.
Import CanvasSync.

(** What can happen to the sync queue of one note: a change is queued, the
    caller forces a sync, a timer fires, the awaited calls of the flush in
    flight settle. *)
Inductive Op :=
| QueueChange (now now' : Z) (element : Element) (type : string)
| ForceSync (now : Z)
| Fire (h : nat) (now : Z)
| Settle (o : Outcome) (now : Z).

Definition exec (cfg : Config) (st : State) (op : Op) : State :=
  match op with
  | QueueChange now now' element type => queueChange cfg now now' element type st
  | ForceSync now => forceSync cfg now st
  | Fire h now => fire cfg h now st
  | Settle o now => settle cfg o now st
  end.

Definition run (cfg : Config) (st : State) (ops : list Op) : State :=
  fold_left (exec cfg) ops st.

Definition isFlush (t : Timer) : bool :=
  match action t with
  | Flush => true
  | Requeue _ => false
  end.

(** The armed debounce timers. *)
Definition flushTimers (st : State) : list Timer :=
  filter (λ t, isFlush t) (timers st).

(** What every run keeps true of the refs and the timers. *)
Record Inv (st : State) : Prop := mkInv {
  inv_registered :
    ∀ c, c ∈ syncQueue st → pendingChanges st !! ch_id c = Some c;
  inv_ids : NoDup (ch_id <$> syncQueue st);
  inv_handles : NoDup (handle <$> timers st);
  inv_fresh : ∀ t, t ∈ timers st → (handle t < nextHandle st)%nat;
  inv_debounce :
    ∀ t, t ∈ timers st → action t = Flush → syncTimeout st = Some (handle t);
  inv_flight : syncInProgress st = true ↔ is_Some (inFlight st)
}.

End QueueRun.

(** A run in which a flush is in flight while a second change waits for
    its debounce timer. *)
Definition x_ops_in_flight : list QueueRun.Op :=
  [QueueRun.QueueChange 1000 1000 (q_elem 1 10) "update";
   QueueRun.Fire 1 1050;
   QueueRun.QueueChange 1060 1060 (q_other "e2") "update"].
Definition x_in_flight : CanvasSync.State :=
  QueueRun.run q_cfg (CanvasSync.initial 0) x_ops_in_flight.

(** A queue holding an update of e1, an update of e2 and the removal of
    e3. *)
Definition x_three_changes : list CanvasSync.Change :=
  CanvasSync.syncQueue
    (QueueRun.run q_cfg (CanvasSync.initial 0)
       [QueueRun.QueueChange 1000 1000 (q_elem 1 10) "update";
        QueueRun.QueueChange 1001 1001 (q_other "e2") "update";
        QueueRun.QueueChange 1002 1002 (idOnly "e3") "remove"]).

(** The flush of [q_once] in flight. *)
Definition x_ops_flight : list QueueRun.Op :=
  [QueueRun.QueueChange 1000 1000 (q_elem 1 10) "update";
   QueueRun.Fire 1 1050].

(** Three local elements, the second one marked deleted, and a clock for
    the events of a batch. *)
Definition x_deleted : Element :=
  {| id := "e7";
     body := {| version := Some 3; isDeleted := Some true;
                lastModified := Some 400; modifiedBy := Some "alice";
                etype := Some "rectangle"; geometry := [("x", 7)] |} |}.
Definition x_local : list Element := [c10_local; x_deleted; q_other "e2"].
Definition x_clock : nat → Z := λ i, 2000 + Z.of_nat i.

(** A later clock for the queue, and the files of a second save. *)
Definition x_later_clock : nat → Z * Z :=
  λ i, (5000 + Z.of_nat i, 5000 + Z.of_nat i).
Definition x_files : CanvasState.Files := [("f1", "image/png")].

(** * Calls of the tool hook *)

Module ToolRun.
Import CanvasTools.

(** [resetTool] *)
Definition resetTool (now : Z) (t : Tools) : Tools :=
  changeTool now "selection" [] t.

(** [isToolStable] *)
Definition isToolStable (now : Z) (t : Tools) : bool :=
  bool_decide (now - lastToolChange (toolStateRef t) > 100).

(** The effect that runs after a render in which [selectedTool] or
    [toolOptions] has changed: the ref is rebuilt from the state and
    stamped with the time of the effect. *)
Definition saveEffect (now : Z) (t : Tools) : Tools :=
  {| selectedTool := selectedTool t; toolOptions := toolOptions t;
     toolStateRef := mkToolRef (selectedTool t) (toolOptions t) now |}.

Inductive Op :=
| ChangeTool (newTool : string) (options : ToolOptions)
| ResetTool
| SaveEffect.

(** One step of the hook at time [now]. *)
Definition exec (t : Tools) (op : Z * Op) : Tools :=
  match op.2 with
  | ChangeTool newTool options => changeTool op.1 newTool options t
  | ResetTool => resetTool op.1 t
  | SaveEffect => saveEffect op.1 t
  end.

Definition run (t : Tools) (ops : list (Z * Op)) : Tools :=
  fold_left exec ops t.

End ToolRun.

(** The rectangle tool chosen at time 100, and what is asked of the hook
    in the 50 ms that follow. *)
Definition x_tools : CanvasTools.Tools :=
  CanvasTools.changeTool 100 "rectangle" [] (CanvasTools.initial 0).
Definition x_tool_burst : list (Z * ToolRun.Op) :=
  [(101, ToolRun.SaveEffect); (120, ToolRun.ChangeTool "ellipse" []);
   (149, ToolRun.ResetTool)].


(** * Events as [propagateChanges] builds them *)

Module Propagation.
Import BoxSync Propagator.

(** The keys of the [boxProperties] literal, in its order. *)
Definition boxPropertyNames : list string :=
  ["x"; "y"; "width"; "height"; "backgroundColor"; "strokeColor";
   "strokeWidth"; "opacity"; "roundness"].

(** The [boxProperties] literal: the nine drawing properties of the
    element, those it has; no id, type, version, author, deletion mark or
    modification time. *)
Definition boxPropertiesOf (element : Element) : Props :=
  {| version := None; isDeleted := None; lastModified := None;
     modifiedBy := None; etype := None;
     geometry :=
       omap (λ name, (λ v, (name, v)) <$>
                       JsMap.get name (geometry (body element)))
         boxPropertyNames |}.

(** [elements.map(element => ({ ... }))]; [sendClock i] is the value
    [Date.now()] has for the [i]-th element. *)
Definition syncEventsOf (userId noteId : option string) (sendClock : nat → Z)
    (elements : list Element) (kind : string) : list SyncEvent :=
  imap (λ i element,
          {| elementId := id element; changeType := kind;
             boxProperties := boxPropertiesOf element;
             timestamp := Some (sendClock i);
             ev_userId := userId; ev_noteId := noteId |})
    elements.

(** The [events] of the result of [propagateChanges]; nothing is built
    before [initialize] has run. *)
Definition propagateChanges (isInitialized : bool)
    (userId noteId : option string) (sendClock : nat → Z)
    (elements : list Element) (kind : string) : option (list SyncEvent) :=
  if negb isInitialized then None
  else Some (syncEventsOf userId noteId sendClock elements kind).

End Propagation.

(** Bob moves e1 at time 600 and sends it; alice handles it at time
    2000.  Bob's next move of e1, sent at time 700, arrives after that. *)
Definition x_bob_clock : nat → Z := λ i, 600 + Z.of_nat i.
Definition x_bob_next : BoxSync.SyncEvent := c2_event 5 700 "bob".

(** * Sending on the channel *)

Module ChannelSend.
Import SyncChannel.





End ChannelSend.

(** * Properties *)

(** ** The insertion-ordered map *)

Section JsMapFacts.
Context {V : Type}.
Implicit Types m : JsMap.t V.

Lemma get_set_eq k v m : JsMap.get k (JsMap.set k v m) = Some v.
Proof.
  induction m as [|[k' v'] r IH]; simpl.
  - by rewrite decide_True.
  - destruct (decide (k = k')) as [->|Hne]; simpl.
    + by rewrite decide_True.
    + by rewrite decide_False.
Qed.

Lemma get_set_ne k k' v m :
  k ≠ k' → JsMap.get k' (JsMap.set k v m) = JsMap.get k' m.
Proof.
  intros Hne. induction m as [|[k0 v0] r IH]; simpl.
  - rewrite decide_False; [done | congruence].
  - destruct (decide (k = k0)) as [->|Hk]; simpl.
    + rewrite !decide_False; [done | congruence | congruence].
    + destruct (decide (k' = k0)); [done | apply IH].
Qed.

Lemma get_set k k' v m :
  JsMap.get k' (JsMap.set k v m) =
  if decide (k = k') then Some v else JsMap.get k' m.
Proof.
  destruct (decide (k = k')) as [->|Hne];
    [apply get_set_eq | by apply get_set_ne].
Qed.

Lemma get_delete_eq k m : JsMap.get k (JsMap.delete k m) = None.
Proof.
  induction m as [|[k' v'] r IH]; simpl; [done|].
  destruct (decide (k = k')) as [->|Hne]; simpl; [done|].
  by rewrite decide_False.
Qed.

Lemma get_delete_ne k k' m :
  k ≠ k' → JsMap.get k' (JsMap.delete k m) = JsMap.get k' m.
Proof.
  intros Hne. induction m as [|[k0 v0] r IH]; simpl; [done|].
  destruct (decide (k = k0)) as [->|Hk]; simpl.
  - rewrite decide_False; [done | congruence].
  - destruct (decide (k' = k0)); [done | apply IH].
Qed.

Lemma keys_set k v m :
  JsMap.keys (JsMap.set k v m) =
  if JsMap.has k m then JsMap.keys m else JsMap.keys m ++ [k].
Proof.
  unfold JsMap.has. induction m as [|[k' v'] r IH]; simpl; [done|].
  destruct (decide (k = k')) as [->|Hne]; simpl; [done|].
  rewrite IH. by destruct (JsMap.get k r).
Qed.

Lemma get_None_keys k m : JsMap.get k m = None ↔ k ∉ JsMap.keys m.
Proof.
  induction m as [|[k' v'] r IH]; simpl.
  - split; [intros _; apply not_elem_of_nil | done].
  - rewrite not_elem_of_cons. destruct (decide (k = k')) as [->|Hne].
    + split; [done | intros [? _]; done].
    + rewrite IH. tauto.
Qed.

Lemma has_keys k m : JsMap.has k m = true ↔ k ∈ JsMap.keys m.
Proof.
  unfold JsMap.has. destruct (JsMap.get k m) eqn:E.
  - split; [intros _ | done].
    destruct (decide (k ∈ JsMap.keys m)) as [|Hn]; [done|].
    apply get_None_keys in Hn. congruence.
  - split; [done | intros Hin].
    apply get_None_keys in E. done.
Qed.

Lemma NoDup_keys_set k v m :
  NoDup (JsMap.keys m) → NoDup (JsMap.keys (JsMap.set k v m)).
Proof.
  intros Hnd. rewrite keys_set. destruct (JsMap.has k m) eqn:E; [done|].
  apply NoDup_app. split; [done|]. split.
  - intros x Hx Hx'. apply list_elem_of_singleton in Hx'. subst x.
    apply has_keys in Hx. congruence.
  - apply NoDup_singleton.
Qed.

Lemma keys_delete k m :
  JsMap.keys (JsMap.delete k m) = filter (λ k', k ≠ k') (JsMap.keys m).
Proof.
  induction m as [|[k' v'] r IH]; simpl; [done|].
  destruct (decide (k = k')) as [->|Hne]; simpl.
  - rewrite filter_cons_False; [done | by intros ?].
  - rewrite filter_cons_True by done. by rewrite IH.
Qed.

Lemma NoDup_keys_delete k m :
  NoDup (JsMap.keys m) → NoDup (JsMap.keys (JsMap.delete k m)).
Proof. intros Hnd. rewrite keys_delete. by apply NoDup_filter. Qed.

(** With distinct JsMap.keys every entry is the one [get] finds. *)
Lemma get_of_entry k v m :
  NoDup (JsMap.keys m) → (k, v) ∈ m → JsMap.get k m = Some v.
Proof.
  induction m as [|[k' v'] r IH]; simpl; intros Hnd Hin.
  - by apply elem_of_nil in Hin.
  - apply NoDup_cons in Hnd as [Hk' Hnd].
    apply elem_of_cons in Hin as [Heq|Hin].
    + inversion Heq; subst. by rewrite decide_True.
    + destruct (decide (k = k')) as [->|Hne]; [|by apply IH].
      exfalso. apply Hk'. apply list_elem_of_fmap. by exists (k', v).
Qed.

Lemma entry_of_get k v m : JsMap.get k m = Some v → (k, v) ∈ m.
Proof.
  induction m as [|[k' v'] r IH]; simpl; [done|].
  destruct (decide (k = k')) as [->|Hne]; intros H.
  - inversion H; subst. apply elem_of_cons. by left.
  - apply elem_of_cons. right. by apply IH.
Qed.


End JsMapFacts.

(** ** Conflict resolution *)

Section ResolveFacts.
Import BoxSync.
Variable userId : option string.
Variable clock : nat → Z.

(** With a version table in place the callback does not throw, and it
    keeps the boxes whose version is not below the table's, a missing
    entry counting as 0. *)
Lemma resolveFrom_with_table (table : gmap string Z) boxes : ∀ i acc,
  ∃ acc',
    resolveFrom userId (Some table) clock i acc boxes = inr acc' ∧
    kept acc' =
      kept acc ++
      filter (λ b, ¬ incomingVersionOf b < Js.or_zero (table !! id b)) boxes.
Proof.
  induction boxes as [|b rest IH]; intros i acc; simpl.
  - exists acc. by rewrite app_nil_r.
  - unfold resolveBox. simpl.
    destruct (bool_decide (incomingVersionOf b < Js.or_zero (table !! id b)))
      eqn:E.
    + apply bool_decide_eq_true in E.
      edestruct IH as (acc' & -> & Hk). exists acc'. split; [done|].
      rewrite Hk. simpl. by rewrite filter_cons_False by (by intros ?).
    + apply bool_decide_eq_false in E.
      destruct (_ && _);
        edestruct IH as (acc' & -> & Hk); exists acc'; (split; [done|]);
        rewrite Hk; simpl; rewrite filter_cons_True by done;
        by rewrite <- app_assoc.
Qed.

(** C1.  In the hook the three cases are not reached.  The object in
    [syncStateRef] has no [boxVersions], so for every batch with at least
    one updated box the read of the local version throws a [TypeError] at
    the first box: no box is rejected or let through, no conflict entry
    comes back.  Only a batch without updated boxes is answered, as it
    came.  With the empty table that [resetBoxSync] would store, the
    local version of every box is 0, so no box with a version of 0 or
    more is ever rejected as stale. *)
Theorem resolveBoxConflicts_throws_on_update
    (created : list Element) (box : Element) (rest deleted : list Element) :
  resolveBoxConflicts userId boxVersionsAsCreated clock
      (mkChanges created (box :: rest) deleted) =
    inl (Js.TypeError "Cannot read properties of undefined (reading 'get')") ∧
  resolveBoxConflicts userId boxVersionsAsCreated clock
      (mkChanges created [] deleted) =
    inr {| res_created := created; res_updated := []; res_deleted := deleted;
           hasConflicts := false; conflicts := []; resolutions := [] |} ∧
  ∃ r,
    resolveBoxConflicts userId boxVersionsAfterReset clock
        (mkChanges created (box :: rest) deleted) = inr r ∧
    res_updated r = filter (λ b, ¬ incomingVersionOf b < 0) (box :: rest).
Proof.
  split; [done|]. split; [done|].
  unfold resolveBoxConflicts, boxVersionsAfterReset.
  destruct (resolveFrom_with_table ∅ (box :: rest) 0 (mkAcc [] [] []))
    as (acc & Hacc & Hk).
  simpl updated. rewrite Hacc. eexists. split; [done|]. simpl.
  rewrite Hk. simpl. apply list_filter_iff. intros b.
  by rewrite lookup_empty.
Qed.

End ResolveFacts.

(** The batch that holds the one box b1, in the hook as it is created. *)
Lemma resolveBoxConflicts_at_first_update :
  BoxSync.resolveBoxConflicts c1_user BoxSync.boxVersionsAsCreated (λ _, 0)
    c1_changes =
  inl (Js.TypeError "Cannot read properties of undefined (reading 'get')").
Proof. reflexivity. Qed.

(** ** Arrival order *)

(** C2.  Two clients that hold no element e1 are handed the same two
    updates of it, sent at times 10 and 20, in opposite orders, each
    client handling its first arrival at time 100 and its second at time
    101.  Either update alone is let through.  An applied update is
    stamped with the receiver's clock, and the next one is compared with
    that stamp: the client that gets them in sending order keeps the
    earlier update and drops the later one, the other client keeps the
    later one.  The two clients end in different states, and the first
    does not hold the update with the highest (version, timestamp).  A
    version among the properties changes nothing: version 2 arriving
    after version 1 is dropped in the same way. *)
Theorem deliver_first_arrival_stays :
  let sent_first := c2_event 1 10 "bob" in
  let sent_last := c2_event 2 20 "carol" in
  let version_1 := c2_versioned 1 1 10 "bob" in
  let version_2 := c2_versioned 2 2 20 "carol" in
  Propagator.handleRemoteUpdate true true [] [sent_first] = Some [sent_first] ∧
  Propagator.handleRemoteUpdate true true [] [sent_last] = Some [sent_last] ∧
  Propagator.deliver true (λ _, 101)
    (Propagator.deliver true (λ _, 100) [] [sent_first]) [sent_last] =
    [{| id := "e1";
        body := {| version := None; isDeleted := Some false;
                   lastModified := Some 100; modifiedBy := None;
                   etype := None; geometry := [("x", 1)] |} |}] ∧
  Propagator.deliver true (λ _, 101)
    (Propagator.deliver true (λ _, 100) [] [sent_last]) [sent_first] =
    [{| id := "e1";
        body := {| version := None; isDeleted := Some false;
                   lastModified := Some 100; modifiedBy := None;
                   etype := None; geometry := [("x", 2)] |} |}] ∧
  Propagator.deliver true (λ _, 101)
    (Propagator.deliver true (λ _, 100) [] [version_1]) [version_2] =
    [{| id := "e1";
        body := {| version := Some 1; isDeleted := Some false;
                   lastModified := Some 100; modifiedBy := None;
                   etype := None; geometry := [("x", 1)] |} |}] ∧
  Propagator.deliver true (λ _, 101)
    (Propagator.deliver true (λ _, 100) [] [version_2]) [version_1] =
    [{| id := "e1";
        body := {| version := Some 2; isDeleted := Some false;
                   lastModified := Some 100; modifiedBy := None;
                   etype := None; geometry := [("x", 2)] |} |}].
Proof. repeat split; vm_compute; reflexivity. Qed.

(** ** Remote changes *)

Section RemoteFacts.
Import BoxSync Propagator.

Lemma entry_of_set {V} k v (m : JsMap.t V) k' v' :
  (k', v') ∈ JsMap.set k v m → (k', v') = (k, v) ∨ (k', v') ∈ m.
Proof.
  induction m as [|[k0 v0] r IH]; simpl.
  - intros H%list_elem_of_singleton. by left.
  - destruct (decide (k = k0)) as [->|Hne].
    + intros [H|H]%elem_of_cons; [by left|].
      right. apply elem_of_cons. by right.
    + intros [H|H]%elem_of_cons.
      * right. apply elem_of_cons. by left.
      * destruct (IH H) as [?|?]; [by left|].
        right. apply elem_of_cons. by right.
Qed.

Lemma filed_set k el m : filed m → id el = k → filed (JsMap.set k el m).
Proof.
  intros [Hnd Hid] Hk. split; [by apply NoDup_keys_set|].
  intros k' el' [Heq|Hin]%entry_of_set; [congruence | by apply Hid].
Qed.

Lemma filed_ofElements_from els : ∀ m,
  filed m → filed (fold_left (λ m el, JsMap.set (id el) el m) els m).
Proof.
  induction els as [|e rest IH]; intros m Hm; simpl; [done|].
  apply IH. by apply filed_set.
Qed.

Lemma filed_ofElements els : filed (ofElements els).
Proof.
  apply filed_ofElements_from. split; [apply NoDup_nil_2|].
  intros k el H. by apply elem_of_nil in H.
Qed.

Lemma filed_applyEvent now m ev : filed m → filed (applyEvent now m ev).
Proof.
  intros Hm. unfold applyEvent.
  destruct (_ || _); [by apply filed_set|].
  case_bool_decide; [|done].
  destruct (JsMap.get (elementId ev) m) as [existing|] eqn:E; [|done].
  apply filed_set; [done|]. simpl.
  destruct Hm as [_ Hid]. apply Hid. by apply entry_of_get.
Qed.

Lemma filed_applyEvents clock evs : ∀ i m,
  filed m → filed (applyEvents clock i m evs).
Proof.
  induction evs as [|ev rest IH]; intros i m Hm; simpl; [done|].
  apply IH. by apply filed_applyEvent.
Qed.

Lemma applyEvent_delete now m ev existing :
  changeType ev = "delete" →
  JsMap.get (elementId ev) m = Some existing →
  JsMap.get (elementId ev) (applyEvent now m ev) =
    Some {| id := id existing; body := with_isDeleted true (body existing) |}.
Proof.
  intros Hd Hget. unfold applyEvent. rewrite Hd. simpl.
  rewrite Hget. apply get_set_eq.
Qed.

Lemma dead_after_delete now m ev :
  changeType ev = "delete" → dead (elementId ev) (applyEvent now m ev).
Proof.
  intros Hd. unfold dead.
  destruct (JsMap.get (elementId ev) m) as [existing|] eqn:E.
  - by rewrite (applyEvent_delete now m ev existing).
  - unfold applyEvent. rewrite Hd. simpl. rewrite E. by rewrite E.
Qed.

Lemma dead_applyEvent now i m e :
  ¬ revives i e → dead i m → dead i (applyEvent now m e).
Proof.
  intros Hrev Hdead. unfold applyEvent.
  destruct (bool_decide (changeType e = "create")
            || bool_decide (changeType e = "update")) eqn:Hcu.
  - assert (elementId e ≠ i) as Hne.
    { intros Heq. apply Hrev. split; [done|].
      apply orb_true_iff in Hcu as [H|H]; apply bool_decide_eq_true in H; auto. }
    unfold dead in *. rewrite get_set_ne by exact Hne. exact Hdead.
  - destruct (bool_decide (changeType e = "delete")) eqn:Hd; [|done].
    destruct (JsMap.get (elementId e) m) as [existing|] eqn:E; [|done].
    unfold dead in *. rewrite get_set.
    destruct (decide (elementId e = i)); [done | exact Hdead].
Qed.

Lemma dead_applyEvents clock i evs : ∀ n m,
  (∀ e, e ∈ evs → ¬ revives i e) → dead i m →
  dead i (applyEvents clock n m evs).
Proof.
  induction evs as [|e rest IH]; intros n m Hno Hdead; simpl; [done|].
  apply IH.
  - intros e' He'. apply Hno. by apply elem_of_cons; right.
  - apply dead_applyEvent; [|done]. apply Hno. by apply elem_of_cons; left.
Qed.

Lemma applyEvents_app clock l1 l2 : ∀ n m,
  applyEvents clock n m (l1 ++ l2) =
  applyEvents clock (n + length l1) (applyEvents clock n m l1) l2.
Proof.
  induction l1 as [|e rest IH]; intros n m; simpl.
  - by rewrite Nat.add_0_r.
  - rewrite IH. f_equal. lia.
Qed.

(** What [applyRemoteChanges] returns: the live elements of the map, each
    found under its own id. *)
Lemma elem_of_applyRemoteChanges clock cur evs el :
  el ∈ applyRemoteChanges clock cur evs ↔
  JsMap.get (id el) (remoteElementMap clock cur evs) = Some el ∧
  live el = true.
Proof.
  unfold applyRemoteChanges.
  assert (filed (remoteElementMap clock cur evs)) as [Hnd Hid].
  { apply filed_applyEvents, filed_ofElements. }
  rewrite list_elem_of_filter. unfold JsMap.values.
  rewrite list_elem_of_fmap. split.
  - intros [Hlive [[k e] [-> Hin]]]. simpl in *.
    split; [|by apply Is_true_true].
    rewrite (Hid k e Hin). by apply get_of_entry.
  - intros [Hget Hlive]. split; [by apply Is_true_true|].
    exists (id el, el). split; [done | by apply entry_of_get].
Qed.

Lemma dead_not_returned clock cur evs i el :
  dead i (remoteElementMap clock cur evs) →
  el ∈ applyRemoteChanges clock cur evs → id el ≠ i.
Proof.
  intros Hdead [Hget Hlive]%elem_of_applyRemoteChanges <-.
  unfold dead in Hdead. rewrite Hget in Hdead.
  unfold live in Hlive. rewrite Hdead in Hlive. discriminate.
Qed.

(** An event about an element that is not in the local list passes the
    filter whatever its timestamp. *)
Lemma passes_unknown enable els ev :
  (∀ el, el ∈ els → id el ≠ elementId ev) → passes enable els ev = true.
Proof.
  intros Hno. unfold passes. case_bool_decide; [done|].
  destruct (find _ els) as [loc|] eqn:E; [|done].
  apply find_some in E as [Hin Hid]. apply bool_decide_eq_true in Hid.
  exfalso. apply (Hno loc); [by apply list_elem_of_In | done].
Qed.

Lemma passes_delete enable els ev :
  changeType ev = "delete" → passes enable els ev = true.
Proof. intros Hd. unfold passes. by rewrite bool_decide_eq_true_2. Qed.

End RemoteFacts.

Section DeleteFacts.
Import BoxSync Propagator.

Lemma resolvedEvents_split enable els pre ev post :
  changeType ev = "delete" →
  resolvedEvents enable els (pre ++ ev :: post) =
  resolvedEvents enable els pre ++ ev :: resolvedEvents enable els post.
Proof.
  intros Hd. unfold resolvedEvents. rewrite filter_app. f_equal.
  rewrite filter_cons_True; [done|].
  apply Is_true_true. by apply passes_delete.
Qed.

(** C10. A remote event whose change type is [delete] always passes the
    filter of [handleRemoteUpdate]: it is in the batch handed to the
    remote-update callback whatever the local elements, their timestamps
    and the conflict-resolution switch are.  Applying it replaces the
    local element by a copy marked [isDeleted], and, unless the same batch
    creates or updates the element again afterwards, the element is absent
    from the list [applyRemoteChanges] returns.  A delete sent long before
    the last local edit therefore still removes the element. *)
Theorem remote_delete_bypasses_conflict_resolution
    (enable : bool) (clock : nat → Z) (canvasElements : list Element)
    (pre post : list SyncEvent) (ev : SyncEvent) :
  changeType ev = "delete" →
  (∀ e, e ∈ post → ¬ revives (elementId ev) e) →
  ∃ resolved,
    handleRemoteUpdate true enable canvasElements (pre ++ ev :: post)
      = Some resolved ∧
    ev ∈ resolved ∧
    (∀ now m existing,
       JsMap.get (elementId ev) m = Some existing →
       JsMap.get (elementId ev) (applyEvent now m ev) =
         Some {| id := id existing;
                 body := with_isDeleted true (body existing) |}) ∧
    (∀ el, el ∈ applyRemoteChanges clock canvasElements resolved →
           id el ≠ elementId ev).
Proof.
  intros Hd Hpost.
  exists (resolvedEvents enable canvasElements (pre ++ ev :: post)).
  rewrite (resolvedEvents_split _ _ _ _ _ Hd).
  split; [|split; [|split]].
  - unfold handleRemoteUpdate. simpl.
    rewrite (resolvedEvents_split _ _ _ _ _ Hd).
    rewrite bool_decide_eq_true_2; [done|].
    rewrite length_app. simpl. lia.
  - apply elem_of_app. right. apply elem_of_cons. by left.
  - intros now m existing. by apply applyEvent_delete.
  - intros el. apply dead_not_returned.
    unfold remoteElementMap. rewrite applyEvents_app. simpl.
    apply dead_applyEvents; [|by apply dead_after_delete].
    intros e He. apply Hpost.
    unfold resolvedEvents in He. apply list_elem_of_filter in He. tauto.
Qed.

End DeleteFacts.

Lemma remote_delete_bypasses_conflict_resolution_witness :
  ∃ resolved,
    Propagator.handleRemoteUpdate true true [c10_local] [c10_delete]
      = Some resolved ∧
    c10_delete ∈ resolved ∧
    (∀ now m existing,
       JsMap.get "e1" m = Some existing →
       JsMap.get "e1" (BoxSync.applyEvent now m c10_delete) =
         Some {| id := id existing;
                 body := with_isDeleted true (body existing) |}) ∧
    (∀ el, el ∈ BoxSync.applyRemoteChanges (λ _, 600) [c10_local] resolved →
           id el ≠ "e1").
Proof.
  apply (remote_delete_bypasses_conflict_resolution true (λ _, 600)
           [c10_local] [] [] c10_delete).
  - reflexivity.
  - intros e He. by apply elem_of_nil in He.
Defined.

(** The delete sent at time 10 removes the element edited at time 500,
    while an update sent at time 10 would have been ignored. *)
Lemma stale_delete_overrides_newer_edit :
  Propagator.deliver true (λ _, 600) [c10_local] [c10_delete] = [] ∧
  Propagator.deliver true (λ _, 600) [c10_local] [c2_event 1 10 "bob"]
    = [c10_local].
Proof. split; vm_compute; reflexivity. Qed.

(** ** Tombstones *)

Section TombstoneFacts.
Import BoxSync Propagator.

(** C8, as amended.  An element that [applyRemoteChanges] has marked
    deleted is excluded from the element list the function returns, and it
    is not kept anywhere: the map that holds it is local to the call, the
    returned list has no element whose [isDeleted] is set and none with
    the id of the deleted element, so a later event for that id meets no
    local element and passes the filter of [handleRemoteUpdate] whatever its
    timestamp. *)
Theorem tombstone_not_retained
    (clock : nat → Z) (currentElements : list Element)
    (remoteEvents : list SyncEvent) (i : string) (tombstone : Element) :
  JsMap.get i (remoteElementMap clock currentElements remoteEvents)
    = Some tombstone →
  Js.truthy (isDeleted (body tombstone)) = true →
  let result := applyRemoteChanges clock currentElements remoteEvents in
  Forall (λ el, Js.truthy (isDeleted (body el)) = false) result ∧
  (∀ el, el ∈ result → id el ≠ i) ∧
  (∀ enable ev, elementId ev = i → passes enable result ev = true).
Proof.
  intros Hget Hdel result.
  assert (∀ el, el ∈ result → id el ≠ i) as Hgone.
  { intros el. apply dead_not_returned. unfold dead. by rewrite Hget. }
  split; [|split; [done|]].
  - apply Forall_forall. intros el [_ Hlive]%elem_of_applyRemoteChanges.
    unfold live in Hlive. by apply negb_true_iff.
  - intros enable ev <-. by apply passes_unknown.
Qed.

End TombstoneFacts.

Lemma tombstone_not_retained_witness :
  let result := BoxSync.applyRemoteChanges (λ _, 600) [c10_local] [c10_delete] in
  Forall (λ el, Js.truthy (isDeleted (body el)) = false) result ∧
  (∀ el, el ∈ result → id el ≠ "e1") ∧
  (∀ enable ev, BoxSync.elementId ev = "e1" →
                Propagator.passes enable result ev = true).
Proof.
  apply (tombstone_not_retained (λ _, 600) [c10_local] [c10_delete] "e1"
           {| id := "e1"; body := with_isDeleted true (body c10_local) |}).
  - vm_compute. reflexivity.
  - reflexivity.
Defined.

(** C8, as stated, fails.  After the delete of e1 has been applied, the
    tombstone sits in the map of the call but e1 is in no state that
    outlives the call: the list handed on is empty.  An update of e1 sent
    at time 20, which the element edited at time 500 would have rejected,
    then finds nothing to be resolved against and brings e1 back.  The
    canvas state manager removes a removed id from its element map. *)
Lemma tombstone_counterexample :
  JsMap.get "e1" (BoxSync.remoteElementMap (λ _, 600) [c10_local] [c10_delete])
    = Some {| id := "e1"; body := with_isDeleted true (body c10_local) |} ∧
  Propagator.deliver true (λ _, 600) [c10_local] [c10_delete] = [] ∧
  Propagator.deliver true (λ _, 700) [c10_local] [c8_late_update]
    = [c10_local] ∧
  id <$> Propagator.deliver true (λ _, 700)
           (Propagator.deliver true (λ _, 600) [c10_local] [c10_delete])
           [c8_late_update]
    = ["e1"] ∧
  JsMap.get "e1" (CanvasState.elementMap c8_state)
    = Some (CanvasState.store c10_local) ∧
  JsMap.get "e1"
    (CanvasState.elementMap
       (fst (CanvasState.applyExternalUpdate
               (CanvasState.mkUpdatePayload None (Some ["e1"])) c8_state)))
    = None.
Proof. repeat split; vm_compute; reflexivity. Qed.

(** ** The sync queue *)

Section QueueFacts.
Import CanvasSync.

Lemma generateChangeId_same el el' now :
  id el' = id el →
  Js.or_zero (version (body el')) = Js.or_zero (version (body el)) →
  generateChangeId el' now = generateChangeId el now.
Proof. intros Hid Hv. unfold generateChangeId. by rewrite Hid, Hv. Qed.

(** Two clock readings give the same element two change ids. *)
Lemma generateChangeId_inj_now el now now2 :
  generateChangeId el now = generateChangeId el now2 → now = now2.
Proof.
  unfold generateChangeId. intros H.
  repeat apply (inj (String.app _)) in H.
  by apply (inj pretty) in H.
Qed.

(** C3, as amended.  The dedup map is keyed by the change id, which is
    made of the element id, the version and the clock reading.  While a
    change is pending, queueing the same (element id, version) again under
    the same clock reading is a no-op: the whole state of the queue, the
    pending list, the dedup map and the timers, is unchanged.  Under a
    clock reading whose change id is not pending the change is queued
    again as a new entry at the end of the pending list. *)
Theorem queueChange_requeue
    (cfg : Config) (st : State) (el el' : Element) (type type' : string)
    (now now1 now2 now2' : Z) :
  id el' = id el →
  Js.or_zero (version (body el')) = Js.or_zero (version (body el)) →
  let st1 := queueChange cfg now now1 el type st in
  is_Some (pendingChanges st1 !! generateChangeId el now) →
  (now2 = now → queueChange cfg now2 now2' el' type' st1 = st1) ∧
  (pendingChanges st1 !! generateChangeId el' now2 = None →
   (length (syncQueue st1) + 1 < maxBatchSize cfg)%nat →
   syncQueue (queueChange cfg now2 now2' el' type' st1) =
     syncQueue st1 ++
       [{| ch_id := generateChangeId el' now2;
           ch_elementId := id el';
           ch_type := type';
           ch_element := if bool_decide (type' = "remove")
                         then idOnly (id el') else el';
           ch_timestamp := now2' |}]).
Proof.
  intros Hid Hv st1 Hpending. split.
  - intros ->. unfold queueChange at 1.
    rewrite (generateChangeId_same el el' now Hid Hv).
    by rewrite bool_decide_eq_true_2.
  - intros Hfree Hroom. unfold queueChange at 1.
    rewrite bool_decide_eq_false_2 by (rewrite Hfree; by intros [? ?]).
    rewrite bool_decide_eq_false_2; [done|].
    simpl. rewrite length_app. simpl. lia.
Qed.

End QueueFacts.

Lemma queueChange_requeue_witness :
  (1000 = 1000 →
   CanvasSync.queueChange q_cfg 1000 1003 (q_elem 1 10) "update" q_once
     = q_once) ∧
  (CanvasSync.pendingChanges q_once
     !! CanvasSync.generateChangeId (q_elem 1 10) 1000 = None →
   (length (CanvasSync.syncQueue q_once) + 1
      < CanvasSync.maxBatchSize q_cfg)%nat →
   CanvasSync.syncQueue
     (CanvasSync.queueChange q_cfg 1000 1003 (q_elem 1 10) "update" q_once) =
     CanvasSync.syncQueue q_once ++
       [{| CanvasSync.ch_id := CanvasSync.generateChangeId (q_elem 1 10) 1000;
           CanvasSync.ch_elementId := "e1";
           CanvasSync.ch_type := "update";
           CanvasSync.ch_element := q_elem 1 10;
           CanvasSync.ch_timestamp := 1003 |}]).
Proof.
  apply (queueChange_requeue q_cfg (CanvasSync.initial 0)
           (q_elem 1 10) (q_elem 1 10) "update" "update" 1000 1000 1000 1003).
  - reflexivity.
  - reflexivity.
  - vm_compute. eexists. reflexivity.
Defined.

(** C3, as stated, fails.  Element e1 at version 1 is queued at time 1000
    and, while that change is still pending, queued again at time 1001:
    the pending list and the dedup map both grow from one entry to two. *)
Lemma requeue_counterexample :
  let st2 :=
    CanvasSync.queueChange q_cfg 1001 1001 (q_elem 1 10) "update" q_once in
  CanvasSync.ch_id <$> CanvasSync.syncQueue q_once = ["e1-1-1000"] ∧
  is_Some (CanvasSync.pendingChanges q_once !! "e1-1-1000") ∧
  CanvasSync.ch_id <$> CanvasSync.syncQueue st2 = ["e1-1-1000"; "e1-1-1001"] ∧
  size (CanvasSync.pendingChanges st2) = 2%nat ∧
  st2 ≠ q_once.
Proof.
  split; [vm_compute; reflexivity|].
  split; [vm_compute; eexists; reflexivity|].
  split; [vm_compute; reflexivity|].
  split; [vm_compute; reflexivity|].
  intros H. apply (f_equal (λ s, length (CanvasSync.syncQueue s))) in H.
  vm_compute in H. discriminate.
Qed.

Section FlushFacts.
Import CanvasSync.

(** An entry [uniqueBy] keeps is the first element of the array with its
    key. *)
Lemma elem_of_uniqueBy {A K} `{EqDecision K} (key : A → K) arr el :
  el ∈ uniqueBy key arr ↔
  ∃ i, list_find (λ e, key e = key el) arr = Some (i, el).
Proof.
  unfold uniqueBy, firstsFrom. rewrite list_elem_of_omap. split.
  - intros [o [Hin Ho]]. subst o.
    apply elem_of_lookup_imap in Hin as (i & z & Hz & Hi).
    case_bool_decide as Hfind; [|discriminate].
    inversion Hz; subst z. exists i.
    destruct (list_find (λ e, key e = key el) arr) as [[j w]|] eqn:E;
      [|discriminate].
    simpl in Hfind. inversion Hfind; subst j.
    apply list_find_Some in E as E'. destruct E' as [Hw _].
    rewrite Hi in Hw. by inversion Hw; subst w.
  - intros [i Hfind]. exists (Some el). split; [|done].
    apply list_find_Some in Hfind as Hfind'. destruct Hfind' as [Hi _].
    apply elem_of_lookup_imap. exists i, el. split; [|done].
    rewrite bool_decide_eq_true_2; [done|]. by rewrite Hfind.
Qed.

(** Every key of the array has an entry. *)
Lemma uniqueBy_covers {A K} `{EqDecision K} (key : A → K) arr el :
  el ∈ arr → ∃ first, first ∈ uniqueBy key arr ∧ key first = key el.
Proof.
  intros Hin.
  destruct (list_find (λ e, key e = key el) arr) as [[i first]|] eqn:E.
  - apply list_find_Some in E as E'. destruct E' as (_ & Hid & _).
    exists first. split; [|done]. apply elem_of_uniqueBy. exists i.
    by rewrite Hid.
  - apply list_find_None in E. rewrite Forall_forall in E.
    by destruct (E el Hin).
Qed.

Lemma firstsFrom_cons {A K} `{EqDecision K} (key : A → K) pre x l :
  firstsFrom key (pre ++ x :: l) (length pre) (x :: l) =
  (if decide (key x ∈ key <$> pre) then [] else [x]) ++
  firstsFrom key ((pre ++ [x]) ++ l) (length (pre ++ [x])) l.
Proof.
  unfold firstsFrom. rewrite imap_cons. cbn [omap list_omap].
  assert (imap
            ((λ index el,
                if bool_decide
                     (fst <$> list_find (λ e, key e = key el) (pre ++ x :: l)
                      = Some (length pre + index)%nat)
                then Some el else None) ∘ S) l =
          imap
            (λ index el,
               if bool_decide
                    (fst <$> list_find (λ e, key e = key el) ((pre ++ [x]) ++ l)
                     = Some (length (pre ++ [x]) + index)%nat)
               then Some el else None) l) as ->.
  { apply imap_ext. intros i y _. simpl.
    rewrite <- app_assoc, length_app. simpl.
    by replace (length pre + 1 + i)%nat with (length pre + S i)%nat by lia. }
  destruct (decide (key x ∈ key <$> pre)) as [Hin|Hnin].
  - apply list_elem_of_fmap in Hin as (y & Hy & Hyin).
    destruct (list_find_elem_of (λ e, key e = key x) pre y Hyin (eq_sym Hy))
      as [[i z] Hfind].
    rewrite (list_find_app_l _ _ _ _ _ Hfind). simpl.
    apply list_find_Some in Hfind as (Hi%lookup_lt_Some & _).
    rewrite bool_decide_eq_false_2; [done|].
    intros Heq. inversion Heq. lia.
  - assert (list_find (λ e, key e = key x) pre = None) as Hnone.
    { apply list_find_None, Forall_forall. intros y Hy Heq.
      apply Hnin. apply list_elem_of_fmap. by exists y. }
    rewrite (list_find_app_r _ _ _ Hnone). simpl.
    rewrite decide_True by done. simpl.
    rewrite bool_decide_eq_true_2; [done|]. f_equal. lia.
Qed.

Lemma firstsFrom_fresh {A K} `{EqDecision K} (key : A → K) l : ∀ pre,
  NoDup (key <$> firstsFrom key (pre ++ l) (length pre) l) ∧
  ∀ y, y ∈ firstsFrom key (pre ++ l) (length pre) l → key y ∉ key <$> pre.
Proof.
  induction l as [|x l IH]; intros pre.
  - split; [apply NoDup_nil_2 | intros y Hy; by apply elem_of_nil in Hy].
  - rewrite firstsFrom_cons.
    destruct (IH (pre ++ [x])) as [Hnd Hfresh].
    assert (∀ y,
              y ∈ firstsFrom key ((pre ++ [x]) ++ l) (length (pre ++ [x])) l →
                 (key y ∉ key <$> pre) ∧ key y ≠ key x) as Hfresh'.
    { intros y Hy. specialize (Hfresh y Hy).
      rewrite fmap_app, elem_of_app in Hfresh. simpl in Hfresh.
      rewrite list_elem_of_singleton in Hfresh. tauto. }
    destruct (decide (key x ∈ key <$> pre)) as [Hin|Hnin]; simpl.
    + split; [done|]. intros y Hy. by apply Hfresh'.
    + split.
      * apply NoDup_cons. split; [|done].
        intros (y & Hy & Hyin)%list_elem_of_fmap.
        destruct (Hfresh' y Hyin) as [_ Hne]. congruence.
      * intros y [->|Hy]%elem_of_cons; [done|]. by apply Hfresh'.
Qed.

(** The entries [uniqueBy] keeps have distinct keys. *)
Lemma uniqueBy_NoDup {A K} `{EqDecision K} (key : A → K) arr :
  NoDup (key <$> uniqueBy key arr).
Proof. apply (firstsFrom_fresh key arr []). Qed.

(** The [changed] list of a flush has one entry for each id that was
    queued as an update; the [removed] list has each removed id once. *)
Lemma changedOf_one_per_id changes :
  NoDup (id <$> changedOf changes) ∧
  ∀ c, c ∈ changes → ch_type c = "update" →
       ∃ el, el ∈ changedOf changes ∧ id el = id (ch_element c).
Proof.
  split; [apply (uniqueBy_NoDup id)|].
  intros c Hc Hty. apply (uniqueBy_covers id).
  apply list_elem_of_fmap. exists c. split; [done|].
  by apply list_elem_of_filter.
Qed.

Lemma removedOf_deduplicated changes :
  NoDup (removedOf changes) ∧
  ∀ c, c ∈ changes → ch_type c = "remove" →
       id (ch_element c) ∈ removedOf changes.
Proof.
  split.
  - pose proof (uniqueBy_NoDup (λ i : string, i)
                  ((λ c, id (ch_element c))
                     <$> filter (λ c, ch_type c = "remove") changes)) as H.
    by rewrite list_fmap_id in H.
  - intros c Hc Hty.
    destruct (uniqueBy_covers (λ i : string, i)
                ((λ c, id (ch_element c))
                   <$> filter (λ c, ch_type c = "remove") changes)
                (id (ch_element c))) as (i & Hi & <-); [|done].
    apply list_elem_of_fmap. exists c. split; [done|].
    by apply list_elem_of_filter.
Qed.

(** The entry of [changed] for an id is the update of that id that was
    queued first. *)
Lemma changedOf_first_queued changes el :
  el ∈ changedOf changes ↔
  ∃ i, list_find (λ e, id e = id el)
         (ch_element <$> filter (λ c, ch_type c = "update") changes)
       = Some (i, el).
Proof. apply (elem_of_uniqueBy id). Qed.

(** C4 at a burst of two edits.  Element e1 is queued at version 1 and,
    within the debounce window, at version 2.  The one flush that follows
    empties the queue and the dedup map and hands the sync callback a
    payload whose only entry for e1 is version 1: the final state of the
    element is not in the batch and is no longer queued. *)
Theorem flush_sends_first_queued_version :
  ch_element <$> syncQueue q_burst = [q_elem 1 10; q_elem 2 20] ∧
  changed <$> synced q_burst_flushed = [[q_elem 1 10]] ∧
  removed <$> synced q_burst_flushed = [[]] ∧
  syncQueue q_burst_flushed = [] ∧
  size (pendingChanges q_burst_flushed) = 0%nat.
Proof. repeat split; vm_compute; reflexivity. Qed.

(** A failed flush arms one retry timer for the whole batch. *)
Lemma settle_failure_arms_retry cfg o now st fl :
  inFlight st = Some fl → o ≠ Delivered →
  timers (settle cfg o now st) =
    timers st ++
      [mkTimer (nextHandle st) (retryDelay st) (Requeue (if_changes fl))] ∧
  syncInProgress (settle cfg o now st) = false.
Proof.
  intros Hfl Ho. unfold settle. rewrite Hfl. by destruct o.
Qed.

Lemma requeue_step_pending_mono (st : State) (change : Change) k :
  is_Some (pendingChanges st !! k) →
  is_Some (pendingChanges
    (if bool_decide (is_Some (pendingChanges st !! ch_id change)) then st
     else with_queue (syncQueue st ++ [change])
            (<[ch_id change := change]> (pendingChanges st)) st) !! k).
Proof.
  intros Hk. case_bool_decide; [done|]. simpl.
  destruct (decide (ch_id change = k)) as [->|Hne].
  - rewrite lookup_insert_eq. by eexists.
  - by rewrite lookup_insert_ne.
Qed.

Lemma requeue_fold_pending changes : ∀ (st : State) c,
  (c ∈ changes ∨ is_Some (pendingChanges st !! ch_id c)) →
  is_Some (pendingChanges
    (fold_left
       (λ st change,
          if bool_decide (is_Some (pendingChanges st !! ch_id change)) then st
          else with_queue (syncQueue st ++ [change])
                 (<[ch_id change := change]> (pendingChanges st)) st)
       changes st) !! ch_id c).
Proof.
  induction changes as [|c0 rest IH]; intros st c H; simpl.
  - destruct H as [H|H]; [by apply elem_of_nil in H | done].
  - apply IH. destruct H as [[->|H]%elem_of_cons|H]; [|by left|].
    + right. case_bool_decide as Hp; [done|]. simpl.
      rewrite lookup_insert_eq. by eexists.
    + right. by apply requeue_step_pending_mono.
Qed.

(** When the retry timer has run, every change of the failed batch is
    pending again. *)
Lemma requeue_all_pending cfg changes st c :
  c ∈ changes → is_Some (pendingChanges (requeue cfg changes st) !! ch_id c).
Proof.
  intros Hc. unfold requeue, scheduleSync. simpl.
  apply requeue_fold_pending. by left.
Qed.

(** C5 at two failed flushes in a row.  The sync callback throws for the
    flush of one queued change; the retry timer is armed with a delay of
    100 ms, runs and queues the change again; the next flush fails too and
    its retry timer is armed with 100 ms again, not 200 ms.  When four
    other changes are queued while the first flush is in the air, the
    delay of the first retry is the cap of 1000 ms.  The exponent is the
    length of the queue at the time of the failure. *)
Theorem retry_delay_ignores_failed_attempts :
  retries q_failed_once = [(100, ["e1-1-1000"])] ∧
  ch_id <$> syncQueue q_requeued = ["e1-1-1000"] ∧
  retries q_failed_twice = [(100, ["e1-1-1000"])] ∧
  retries q_failed_busy = [(1000, ["e1-1-1000"])] ∧
  ∀ st, retryDelay st =
        Z.min 1000 (2 ^ Z.of_nat (length (syncQueue st)) * 100).
Proof. repeat split; vm_compute; reflexivity. Qed.

End FlushFacts.

(** ** Change detection *)

Section DetectFacts.
Import CanvasState.

Lemma classify_fold m l : ∀ acc,
  let r := fold_left (classify m) l acc in
  cs_added r = cs_added acc ++ filter (λ e, isAdded m e) l ∧
  cs_updated r = cs_updated acc ++ filter (λ e, isUpdated m e) l ∧
  cs_removed r = cs_removed acc.
Proof.
  induction l as [|e rest IH]; intros acc; simpl.
  - by rewrite !app_nil_r.
  - destruct (IH (classify m acc e)) as (Ha & Hu & Hr).
    rewrite Ha, Hu, Hr. clear IH Ha Hu Hr.
    rewrite !filter_cons. unfold classify.
    destruct (decide (isAdded m e)) as [Ha|Ha];
      destruct (decide (isUpdated m e)) as [Hu|Hu];
      unfold isAdded, isUpdated in Ha, Hu;
      destruct (JsMap.get (id e) m) as [existing|]; simpl in *; try done.
    + by rewrite <- app_assoc.
    + apply Is_true_true in Hu. rewrite Hu. simpl. by rewrite <- app_assoc.
    + apply Is_true_false in Hu. by rewrite Hu.
Qed.

Lemma classifyRemoved_fold newMap (m : JsMap.t Stored) : ∀ acc,
  let r := fold_left (classifyRemoved newMap) m acc in
  cs_added r = cs_added acc ∧
  cs_updated r = cs_updated acc ∧
  cs_removed r =
    cs_removed acc ++
    (idOnly <$> filter (λ k, JsMap.has k newMap = false) (JsMap.keys m)).
Proof.
  induction m as [|[k v] rest IH]; intros acc; simpl.
  - by rewrite app_nil_r.
  - destruct (IH (classifyRemoved newMap acc (k, v))) as (Ha & Hu & Hr).
    rewrite Ha, Hu, Hr. clear IH Ha Hu Hr.
    unfold classifyRemoved. simpl.
    destruct (JsMap.has k newMap) eqn:E; simpl.
    + by rewrite filter_cons_False by (by rewrite E).
    + rewrite filter_cons_True by done. simpl. by rewrite <- app_assoc.
Qed.

Lemma has_fold_set {V} (g : Element → V) k els : ∀ m,
  JsMap.has k (fold_left (λ m e, JsMap.set (id e) (g e) m) els m) = true ↔
  JsMap.has k m = true ∨ k ∈ id <$> els.
Proof.
  induction els as [|e rest IH]; intros m; simpl.
  - split; [by left | intros [?|H]; [done | by apply elem_of_nil in H]].
  - rewrite IH, elem_of_cons. unfold JsMap.has at 1. rewrite get_set.
    destruct (decide (id e = k)) as [->|Hne].
    + split; [intros _; right; by left | by left].
    + fold (JsMap.has k m).
      split; [intros [?|?]; auto | intros [?|[?|?]]; auto; congruence].
Qed.

(** What [detectChanges] returns: the new elements whose id is not in
    the map, the new elements whose stored version differs from their
    own, and the ids of the map that no new element carries. *)
Lemma detectChanges_spec (m : JsMap.t Stored) (next : list Element) :
  cs_added (detectChanges m next) = filter (λ e, isAdded m e) next ∧
  cs_updated (detectChanges m next) = filter (λ e, isUpdated m e) next ∧
  cs_removed (detectChanges m next) =
    idOnly <$> filter (λ k, k ∉ id <$> next) (JsMap.keys m).
Proof.
  unfold detectChanges.
  destruct (classifyRemoved_fold
              (fold_left (λ m e, JsMap.set (id e) e m) next JsMap.empty) m
              (fold_left (classify m) next (mkChangeSet [] [] [])))
    as (Ha & Hu & Hr).
  destruct (classify_fold m next (mkChangeSet [] [] [])) as (Ha' & Hu' & Hr').
  rewrite Ha, Hu, Hr, Ha', Hu', Hr'. simpl. repeat split.
  f_equal. apply list_filter_iff. intros k.
  rewrite <- not_true_iff_false.
  rewrite (has_fold_set (λ e, e)). unfold JsMap.has. simpl. split.
  - intros H Hin. apply H. by right.
  - intros H [?|?]; [done | by apply H].
Qed.

(** What [detectChanges] tells apart.  It reports an element of the new list
    as added exactly when its id is not in the previous map, and as
    updated exactly when its id is in the map and the stored version
    differs from its own version, where a missing version counts as 0 on
    both sides; no hash of the element is taken.  It reports as removed
    exactly the ids of the map that no new element carries, each as an
    object that holds the id only.  The three lists follow the order of
    the new list and of the map. *)
Theorem detectChanges_classification
    (m : JsMap.t Stored) (next : list Element) :
  let changes := detectChanges m next in
  (∀ e, e ∈ cs_added changes ↔ e ∈ next ∧ JsMap.get (id e) m = None) ∧
  (∀ e, e ∈ cs_updated changes ↔
        e ∈ next ∧
        ∃ existing, JsMap.get (id e) m = Some existing ∧
                    _version existing ≠ Js.or_zero (version (body e))) ∧
  (∀ r, r ∈ cs_removed changes ↔
        ∃ k, r = idOnly k ∧ k ∈ JsMap.keys m ∧ k ∉ id <$> next) ∧
  cs_added changes = filter (λ e, isAdded m e) next ∧
  cs_updated changes = filter (λ e, isUpdated m e) next ∧
  cs_removed changes = idOnly <$> filter (λ k, k ∉ id <$> next) (JsMap.keys m).
Proof.
  intros changes.
  destruct (detectChanges_spec m next) as (Ha & Hu & Hr).
  fold changes in Ha, Hu, Hr. rewrite Ha, Hu, Hr.
  split; [|split; [|split]]; [| | |done].
  - intros e. rewrite list_elem_of_filter. unfold isAdded.
    destruct (JsMap.get (id e) m); simpl; split;
      intros [? ?]; split; done.
  - intros e. rewrite list_elem_of_filter. unfold isUpdated.
    destruct (JsMap.get (id e) m) as [existing|]; simpl.
    + rewrite bool_decide_spec. split.
      * intros [Hv Hin]. split; [done|]. by exists existing.
      * intros [Hin (ex & Hex & Hv)]. split; [|done]. by inversion Hex; subst.
    + split; [by intros [? ?] | by intros [_ (ex & Hex & _)]].
  - intros r. rewrite list_elem_of_fmap. split.
    + intros (k & -> & Hk%list_elem_of_filter). exists k. tauto.
    + intros (k & -> & Hk & Hn). exists k. split; [done|].
      by apply list_elem_of_filter.
Qed.

(** C9.  The modification test of the repository: element 1 carries no
    version and is moved from (100, 100) to (150, 150).  The version
    stored for it and the version of the moved element both count as 0,
    and nothing else of the element is compared, no hash of it is taken:
    the moved element is reported neither as updated nor as added,
    [updateCanvasContent] answers that nothing has changed, keeps the old
    content and queues nothing, where the test expects a change with one
    modified element. *)
Theorem detectChanges_misses_versionless_edit :
  c9_before ≠ c9_after ∧
  version (body c9_before) = None ∧
  version (body c9_after) = None ∧
  JsMap.get "1" (elementMap c9_state) = Some (mkStored c9_before 0) ∧
  detectChanges (elementMap c9_state) [c9_after] = mkChangeSet [] [] [] ∧
  updateCanvasContent q_cfg c9_clock [c9_after] [] c9_state = (c9_state, None) ∧
  elements (canvasContent c9_state) = [c9_before].
Proof.
  split; [discriminate|]. repeat split; vm_compute; reflexivity.
Qed.

End DetectFacts.

(** ** External updates *)

Section ExternalFacts.
Import BoxSync CanvasState.

Lemma lastWithId_cons i e rest :
  lastWithId i (e :: rest) =
  if decide (id e = i) then Some (default e (lastWithId i rest))
  else lastWithId i rest.
Proof.
  unfold lastWithId. rewrite filter_cons.
  destruct (decide (id e = i)); [|done].
  rewrite last_cons. by destruct (last _).
Qed.

Lemma get_fold_set {V} (g : Element → V) i els : ∀ m,
  JsMap.get i (fold_left (λ m e, JsMap.set (id e) (g e) m) els m) =
  match lastWithId i els with
  | Some e => Some (g e)
  | None => JsMap.get i m
  end.
Proof.
  induction els as [|e rest IH]; intros m; simpl; [done|].
  rewrite IH, lastWithId_cons, get_set.
  destruct (decide (id e = i)); by destruct (lastWithId i rest).
Qed.

Lemma get_fold_delete {V} i ks : ∀ m : JsMap.t V,
  JsMap.get i (fold_left (λ m k, JsMap.delete k m) ks m) =
  if decide (i ∈ ks) then None else JsMap.get i m.
Proof.
  induction ks as [|k rest IH]; intros m; simpl.
  - done.
  - rewrite IH. destruct (decide (i ∈ rest)) as [Hin|Hnin].
    + rewrite decide_True; [done | by apply elem_of_cons; right].
    + destruct (decide (k = i)) as [->|Hne].
      * rewrite decide_True by (by apply elem_of_cons; left).
        apply get_delete_eq.
      * rewrite decide_False by (rewrite elem_of_cons; intros [?|?]; done).
        by apply get_delete_ne.
Qed.

Lemma entry_of_delete {V} k (m : JsMap.t V) k' v' :
  (k', v') ∈ JsMap.delete k m → (k', v') ∈ m.
Proof.
  induction m as [|[k0 v0] r IH]; simpl; [done|].
  destruct (decide (k = k0)) as [->|Hne].
  - intros H. apply elem_of_cons. right. by apply IH.
  - intros [H|H]%elem_of_cons; apply elem_of_cons; [by left|].
    right. by apply IH.
Qed.

Lemma filed_delete k m : filed m → filed (JsMap.delete k m).
Proof.
  intros [Hnd Hid]. split; [by apply NoDup_keys_delete|].
  intros k' el Hin. apply Hid. by apply entry_of_delete in Hin.
Qed.

Lemma filed_fold_delete ks : ∀ m,
  filed m → filed (fold_left (λ m k, JsMap.delete k m) ks m).
Proof.
  induction ks as [|k rest IH]; intros m Hm; simpl; [done|].
  apply IH. by apply filed_delete.
Qed.

Lemma filed_externalElementMap cur removed changed :
  filed (externalElementMap cur removed changed).
Proof.
  unfold externalElementMap.
  apply filed_ofElements_from, filed_fold_delete. apply (filed_ofElements cur).
Qed.

(** In a map filed by id, the elements with id [i] among the values are
    the one entry under [i]. *)
Lemma lastWithId_values i m :
  filed m → lastWithId i (JsMap.values m) = JsMap.get i m.
Proof.
  induction m as [|[k v] r IH]; intros [Hnd Hid]; [done|].
  change (NoDup (k :: JsMap.keys r)) in Hnd.
  apply NoDup_cons in Hnd as [Hk Hnd].
  assert (filed r) as Hr.
  { split; [done|]. intros k' el Hin. apply Hid. apply elem_of_cons. by right. }
  assert (id v = k) as Hv.
  { apply Hid. apply elem_of_cons. by left. }
  change (lastWithId i (v :: JsMap.values r) =
          if decide (i = k) then Some v else JsMap.get i r).
  rewrite lastWithId_cons, (IH Hr), Hv.
  destruct (decide (k = i)) as [->|Hne].
  - rewrite decide_True by done.
    apply get_None_keys in Hk. by rewrite Hk.
  - by rewrite decide_False by congruence.
Qed.

(** C7.  [applyExternalUpdate] leaves the sync queue of the state manager
    as it is, with its pending list, dedup map, timers and the payloads
    handed out so far, and leaves the tool state as it is, selected tool
    and options included.  It rebuilds the element map: an id of the
    payload's changed list maps to the last changed element with that id,
    any other id of the removed list is absent, and any other id maps to
    the element the content had for it.  The content holds the elements of
    that map and its version counter is advanced by one. *)
Theorem applyExternalUpdate_frame (updatePayload : UpdatePayload) (st : State) :
  let st' := fst (applyExternalUpdate updatePayload st) in
  let changed := default [] (up_changed updatePayload) in
  let removed := default [] (up_removed updatePayload) in
  sync st' = sync st ∧
  tools st' = tools st ∧
  CanvasTools.selectedTool (tools st') = CanvasTools.selectedTool (tools st) ∧
  CanvasTools.toolOptions (tools st') = CanvasTools.toolOptions (tools st) ∧
  (∀ i, JsMap.get i (elementMap st') =
        match lastWithId i changed with
        | Some e => Some (store e)
        | None =>
            if decide (i ∈ removed) then None
            else store <$> lastWithId i (elements (canvasContent st))
        end) ∧
  (∀ e, e ∈ elements (canvasContent st') ↔
        JsMap.get (id e) (elementMap st') = Some (store e)) ∧
  files (canvasContent st') = files (canvasContent st) ∧
  contentVersion st' = S (contentVersion st) ∧
  snd (applyExternalUpdate updatePayload st) =
    (elements (canvasContent st'), files (canvasContent st)).
Proof.
  intros st' changed removed.
  set (m := externalElementMap (elements (canvasContent st)) removed changed).
  assert (filed m) as Hm by apply filed_externalElementMap.
  assert (∀ i, JsMap.get i m =
               match lastWithId i changed with
               | Some e => Some e
               | None =>
                   if decide (i ∈ removed) then None
                   else lastWithId i (elements (canvasContent st))
               end) as Hget.
  { intros i. unfold m, externalElementMap.
    rewrite (get_fold_set (λ e, e)), get_fold_delete, (get_fold_set (λ e, e)).
    simpl. destruct (lastWithId i changed); [done|].
    destruct (decide (i ∈ removed)); [done|].
    by destruct (lastWithId i (elements (canvasContent st))). }
  assert (∀ i, JsMap.get i (elementMap st') = store <$> JsMap.get i m) as Hmap.
  { intros i. unfold st', applyExternalUpdate. simpl.
    unfold initializeElementMap. rewrite (get_fold_set store). simpl.
    fold changed removed m. rewrite (lastWithId_values i m Hm).
    by destruct (JsMap.get i m). }
  repeat split; try done.
  - intros i. rewrite Hmap, Hget.
    destruct (lastWithId i changed); [done|].
    by destruct (decide (i ∈ removed)).
  - intros He. rewrite Hmap.
    unfold st', applyExternalUpdate in He. simpl in He. fold changed removed m in He.
    unfold JsMap.values in He. apply list_elem_of_fmap in He as [[k v] [-> Hin]].
    simpl. destruct Hm as [Hnd Hid]. rewrite (Hid k v Hin).
    by rewrite (get_of_entry k v m Hnd Hin).
  - rewrite Hmap. intros He.
    destruct (JsMap.get (id e) m) as [e'|] eqn:E; [|discriminate].
    simpl in He. assert (e' = e) as ->.
    { destruct Hm as [_ Hid]. apply entry_of_get in E as Hin.
      pose proof (Hid _ _ Hin) as Hide.
      inversion He as [[He1 He2]]. destruct e, e'. simpl in *. congruence. }
    unfold st', applyExternalUpdate. simpl. fold changed removed m.
    unfold JsMap.values. apply list_elem_of_fmap. exists (id e, e).
    split; [done | by apply entry_of_get].
Qed.

End ExternalFacts.

(** The external update of [c7_payload] goes through while the rectangle
    tool stays selected and nothing is queued for the network; the local
    edit path, in contrast, queues its changes. *)
Lemma applyExternalUpdate_keeps_tool_and_queue :
  let st' := fst (CanvasState.applyExternalUpdate c7_payload c7_state) in
  CanvasTools.selectedTool (CanvasState.tools st') = "rectangle" ∧
  CanvasSync.syncQueue (CanvasState.sync st') =
    CanvasSync.syncQueue (CanvasState.sync c7_state) ∧
  id <$> CanvasState.elements (CanvasState.canvasContent st') = ["e1"; "e9"] ∧
  length (CanvasSync.syncQueue (CanvasState.sync c7_state)) = 2%nat.
Proof. repeat split; vm_compute; reflexivity. Qed.

(** ** Reconnection *)

Section ChannelFacts.
Import SyncChannel.
Variable cfg : Config.

(** [handleConnectionError] marks the channel as not connected, sets the
    status to [error] and throws at the call of [setLastSyncError]; the
    counter, the timer and the [failed] status are not reached. *)
Lemma handleConnectionError_throws message st :
  handleConnectionError cfg message st =
    ({| isConnected := false; reconnectAttempts := reconnectAttempts st;
        connectionId := connectionId st; hasChannel := hasChannel st;
        connectionStatus := error; scheduled := scheduled st |},
     inl (Js.ReferenceError "setLastSyncError is not defined")).
Proof. reflexivity. Qed.

Lemma step_quiet st e :
  reconnectAttempts st = 0%nat → scheduled st = [] →
  connectionStatus st ≠ failed →
  reconnectAttempts (step cfg st e) = 0%nat ∧
  scheduled (step cfg st e) = [] ∧
  connectionStatus (step cfg st e) ≠ failed.
Proof.
  intros Ha Hs Hf. destruct e; unfold step.
  - rewrite handleConnectionError_throws. simpl. done.
  - unfold connect. destruct (hasChannel st); simpl; done.
  - done.
  - done.
Qed.

Lemma run_quiet trace : ∀ st,
  reconnectAttempts st = 0%nat → scheduled st = [] →
  connectionStatus st ≠ failed →
  reconnectAttempts (run cfg st trace) = 0%nat ∧
  scheduled (run cfg st trace) = [] ∧
  connectionStatus (run cfg st trace) ≠ failed.
Proof.
  induction trace as [|e rest IH]; intros st Ha Hs Hf; [done|].
  destruct (step_quiet st e Ha Hs Hf) as (Ha' & Hs' & Hf').
  by apply IH.
Qed.

(** C6.  No reconnection is ever scheduled.  Whatever has happened to
    the channel before, however many connection errors among it, a
    connection error marks the channel as not connected, sets the status
    to [error] and then throws a [ReferenceError] at the call of the
    undeclared [setLastSyncError].  The code behind that call does not
    run: the failure counter stays at 0, no reconnection timer is armed,
    with any delay, and the status [failed] is never entered. *)
Theorem connection_error_never_reconnects
    (trace : list Event) (message : string) :
  let before := run cfg initial trace in
  let result := handleConnectionError cfg message before in
  result.2 = inl (Js.ReferenceError "setLastSyncError is not defined") ∧
  isConnected result.1 = false ∧
  connectionStatus result.1 = error ∧
  reconnectAttempts result.1 = 0%nat ∧
  scheduled result.1 = [] ∧
  connectionStatus before ≠ failed.
Proof.
  intros before result.
  destruct (run_quiet trace initial) as (Ha & Hs & Hf); [done..|].
  unfold result. rewrite handleConnectionError_throws. simpl.
  fold before in Ha, Hs, Hf. done.
Qed.

End ChannelFacts.

(** The first connection error of a channel with the default settings,
    and the fifth in a row: each time the status is [error], the counter
    is 0 and no timer is armed, where the backoff would have armed timers
    of 5000, 10000, 20000, 40000 and 80000 ms. *)
Lemma connection_error_at_defaults :
  let one := SyncChannel.run SyncChannel.defaults SyncChannel.initial
               [SyncChannel.CallerConnect "c1";
                SyncChannel.ConnectionError "e1"] in
  let five := SyncChannel.run SyncChannel.defaults SyncChannel.initial
                c6_five_failures in
  SyncChannel.handleConnectionError SyncChannel.defaults "e1"
    (SyncChannel.connect "c1" SyncChannel.initial) =
    (one, inl (Js.ReferenceError "setLastSyncError is not defined")) ∧
  SyncChannel.connectionStatus one = SyncChannel.error ∧
  SyncChannel.scheduled one = [] ∧
  SyncChannel.reconnectAttempts one = 0%nat ∧
  five = one ∧
  SyncChannel.backoff SyncChannel.defaults <$> seq 1 5 =
    [5000; 10000; 20000; 40000; 80000].
Proof. repeat split; vm_compute; reflexivity. Qed.

(** ** Runs of the sync queue *)

Section QueueRunFacts.
Import CanvasSync QueueRun.
Variable cfg : Config.

Lemma Inv_initial now : Inv (initial now).
Proof.
  constructor; simpl.
  - intros c Hc. by apply elem_of_nil in Hc.
  - apply NoDup_nil_2.
  - apply NoDup_nil_2.
  - intros t Ht. by apply elem_of_nil in Ht.
  - intros t Ht. by apply elem_of_nil in Ht.
  - split; [done | by intros [? ?]].
Qed.

Lemma elem_of_clearTimeout h ts t :
  t ∈ clearTimeout h ts ↔ t ∈ ts ∧ h ≠ Some (handle t).
Proof.
  unfold clearTimeout. destruct h as [n|].
  - rewrite list_elem_of_filter. split.
    + intros [Hn Ht]. split; [done | congruence].
    + intros [Ht Hn]. split; [congruence | done].
  - split; [by intros ? | by intros [? _]].
Qed.

Lemma NoDup_handles_clearTimeout h ts :
  NoDup (handle <$> ts) → NoDup (handle <$> clearTimeout h ts).
Proof.
  unfold clearTimeout. destruct h as [n|]; [|done].
  induction ts as [|t ts IH]; simpl; [done|].
  intros [Hn Hnd]%NoDup_cons. rewrite filter_cons.
  destruct (decide (handle t ≠ n)); [|by apply IH].
  simpl. apply NoDup_cons. split; [|by apply IH].
  intros (t' & Heq & Hin%list_elem_of_filter)%list_elem_of_fmap.
  apply Hn. apply list_elem_of_fmap. exists t'. tauto.
Qed.

Lemma Inv_scheduleSync st : Inv st → Inv (scheduleSync cfg st).
Proof.
  intros [Hreg Hids Hnd Hfresh Hdeb Hfl]. unfold scheduleSync. simpl.
  constructor; simpl; try done.
  - rewrite fmap_app. simpl. apply NoDup_app. split; [|split].
    + by apply NoDup_handles_clearTimeout.
    + intros n (t & -> & [Ht _]%elem_of_clearTimeout)%list_elem_of_fmap
        Hn%list_elem_of_singleton.
      specialize (Hfresh t Ht). lia.
    + apply NoDup_singleton.
  - intros t [[Ht _]%elem_of_clearTimeout | ->%list_elem_of_singleton]%elem_of_app;
      simpl; [|lia].
    specialize (Hfresh t Ht). lia.
  - intros t [[Ht Hn]%elem_of_clearTimeout | ->%list_elem_of_singleton]%elem_of_app
      Hact; simpl; [|done].
    exfalso. apply Hn. by apply Hdeb.
Qed.

Lemma Inv_clearTimeout h st :
  Inv st →
  Inv {| syncQueue := syncQueue st; syncTimeout := syncTimeout st;
         lastSync := lastSync st; pendingChanges := pendingChanges st;
         syncInProgress := syncInProgress st; inFlight := inFlight st;
         timers := clearTimeout h (timers st);
         nextHandle := nextHandle st; synced := synced st;
         broadcasts := broadcasts st |}.
Proof.
  intros [Hreg Hids Hnd Hfresh Hdeb Hfl]. constructor; simpl; try done.
  - by apply NoDup_handles_clearTimeout.
  - intros t [Ht _]%elem_of_clearTimeout. by apply Hfresh.
  - intros t [Ht _]%elem_of_clearTimeout. by apply Hdeb.
Qed.

Lemma Inv_processSyncQueue now st : Inv st → Inv (processSyncQueue cfg now st).
Proof.
  intros Hinv. unfold processSyncQueue.
  destruct (syncInProgress st || _) eqn:Hguard; [done|].
  apply orb_false_iff in Hguard as [Hprog _].
  destruct Hinv as [Hreg Hids Hnd Hfresh Hdeb Hfl].
  destruct (_ && _); constructor; simpl; try done;
    try (intros c Hc; by apply elem_of_nil in Hc);
    try apply NoDup_nil_2.
  destruct (hasOnSync cfg || hasBroadcastChannel cfg);
    split; first [done | by eexists | by intros [? ?]].
Qed.

Lemma Inv_settle o now st : Inv st → Inv (settle cfg o now st).
Proof.
  intros Hinv. unfold settle. destruct (inFlight st) as [fl|]; [|done].
  destruct Hinv as [Hreg Hids Hnd Hfresh Hdeb Hfl].
  assert (∀ sent lastS,
    Inv (fst (setTimeout (Requeue (if_changes fl)) (retryDelay st)
      {| syncQueue := syncQueue st; syncTimeout := syncTimeout st;
         lastSync := lastS; pendingChanges := pendingChanges st;
         syncInProgress := false; inFlight := None;
         timers := timers st; nextHandle := nextHandle st;
         synced := synced st; broadcasts := sent |}))) as Hretry.
  { intros sent lastS. constructor; simpl; try done.
    - rewrite fmap_app. simpl. apply NoDup_app. split; [done|]. split.
      + intros n (t & -> & Ht)%list_elem_of_fmap Hn%list_elem_of_singleton.
        specialize (Hfresh t Ht). lia.
      + apply NoDup_singleton.
    - intros t [Ht | ->%list_elem_of_singleton]%elem_of_app; simpl; [|lia].
      specialize (Hfresh t Ht). lia.
    - intros t [Ht | ->%list_elem_of_singleton]%elem_of_app Hact;
        [by apply Hdeb | done]. }
  destruct o; [|apply Hretry..].
  constructor; simpl; done.
Qed.

Lemma Inv_enqueue st change :
  Inv st → pendingChanges st !! ch_id change = None →
  Inv (with_queue (syncQueue st ++ [change])
         (<[ch_id change := change]> (pendingChanges st)) st).
Proof.
  intros [Hreg Hids Hnd Hfresh Hdeb Hfl] Hnew.
  constructor; simpl; try done.
  - intros c [Hc | ->%list_elem_of_singleton]%elem_of_app.
    + rewrite lookup_insert_ne; [by apply Hreg|].
      intros Heq. rewrite Heq, (Hreg c Hc) in Hnew. discriminate.
    + by rewrite lookup_insert_eq.
  - rewrite fmap_app. simpl. apply NoDup_app. split; [done|]. split.
    + intros i (c & -> & Hc)%list_elem_of_fmap Hi%list_elem_of_singleton.
      rewrite <- Hi, (Hreg c Hc) in Hnew. discriminate.
    + apply NoDup_singleton.
Qed.

Lemma Inv_requeue changes st : Inv st → Inv (requeue cfg changes st).
Proof.
  intros Hinv. unfold requeue. apply Inv_scheduleSync.
  revert st Hinv. induction changes as [|c rest IH]; intros st Hinv; simpl;
    [done|].
  apply IH. case_bool_decide as Hp; [done|].
  apply Inv_enqueue; [done|].
  by apply eq_None_not_Some.
Qed.

Lemma Inv_queueChange now now' element type st :
  Inv st → Inv (queueChange cfg now now' element type st).
Proof.
  intros Hinv. unfold queueChange.
  destruct (bool_decide (is_Some (pendingChanges st !! _))) eqn:Hp; [done|].
  apply bool_decide_eq_false, eq_None_not_Some in Hp.
  pose proof (Inv_enqueue st
    {| ch_id := generateChangeId element now;
       ch_elementId := id element;
       ch_type := type;
       ch_element := if bool_decide (type = "remove") then idOnly (id element)
                     else element;
       ch_timestamp := now' |} Hinv Hp) as Hinv'.
  match goal with
  | |- Inv (if ?b then _ else _) => destruct b
  end; [by apply Inv_processSyncQueue | by apply Inv_scheduleSync].
Qed.

Lemma Inv_fire h now st : Inv st → Inv (fire cfg h now st).
Proof.
  intros Hinv. unfold fire. destruct (find _ _) as [t|]; [|done].
  pose proof (Inv_clearTimeout (Some h) st Hinv) as Hinv'.
  destruct (action t); [by apply Inv_processSyncQueue | by apply Inv_requeue].
Qed.

Lemma Inv_exec st op : Inv st → Inv (exec cfg st op).
Proof.
  intros Hinv. destruct op; simpl.
  - by apply Inv_queueChange.
  - apply Inv_processSyncQueue. by apply Inv_clearTimeout.
  - by apply Inv_fire.
  - by apply Inv_settle.
Qed.

Lemma Inv_run ops : ∀ st, Inv st → Inv (run cfg st ops).
Proof.
  induction ops as [|op rest IH]; intros st Hinv; simpl; [done|].
  apply IH. by apply Inv_exec.
Qed.

(** With distinct handles, at most one timer carries a given handle. *)
Lemma flushTimers_at_most_one st :
  Inv st → (length (flushTimers st) ≤ 1)%nat.
Proof.
  intros [_ _ Hnd _ Hdeb _]. unfold flushTimers.
  assert (∀ t, t ∈ filter (λ t, isFlush t) (timers st) →
               syncTimeout st = Some (handle t)) as Hall.
  { intros t [Hf Ht]%list_elem_of_filter. apply Hdeb; [done|].
    unfold isFlush in Hf. by destruct (action t). }
  assert (NoDup (handle <$> filter (λ t, isFlush t) (timers st))) as Hnd'.
  { revert Hnd. generalize (timers st). intros ts.
    induction ts as [|t ts IH]; simpl; [done|].
    intros [Hn Hnd]%NoDup_cons. rewrite filter_cons.
    destruct (decide (isFlush t)); [|by apply IH].
    simpl. apply NoDup_cons. split; [|by apply IH].
    intros (t' & Heq & Hin%list_elem_of_filter)%list_elem_of_fmap.
    apply Hn. apply list_elem_of_fmap. exists t'. tauto. }
  destruct (filter (λ t, isFlush t) (timers st)) as [|t1 [|t2 rest]];
    simpl; [lia | lia |].
  exfalso.
  assert (handle t1 = handle t2) as Heq.
  { pose proof (Hall t1 ltac:(apply elem_of_cons; by left)) as H1.
    pose proof (Hall t2 ltac:(apply elem_of_cons; right; apply elem_of_cons; by left)) as H2.
    congruence. }
  simpl in Hnd'. apply NoDup_cons in Hnd' as [Hn _].
  apply Hn. rewrite Heq. apply elem_of_cons. by left.
Qed.

End QueueRunFacts.

Section QueueRunTheorems.
Import CanvasSync QueueRun.
Variable cfg : Config.

Lemma Inv_reachable now ops : Inv (run cfg (initial now) ops).
Proof. apply Inv_run, Inv_initial. Qed.

(** Clearing the handle of the debounce timer leaves no debounce timer. *)
Lemma flush_cleared st :
  Inv st →
  filter (λ t, isFlush t) (clearTimeout (syncTimeout st) (timers st)) = [].
Proof.
  intros [_ _ _ _ Hdeb _].
  destruct (filter _ _) as [|t rest] eqn:E; [done|]. exfalso.
  assert (t ∈ filter (λ t, isFlush t)
                (clearTimeout (syncTimeout st) (timers st))) as Hin.
  { rewrite E. apply elem_of_cons. by left. }
  apply list_elem_of_filter in Hin as [Hf [Ht Hn]%elem_of_clearTimeout].
  apply Hn, Hdeb; [done|]. unfold isFlush in Hf. by destruct (action t).
Qed.

Lemma processSyncQueue_timers now st :
  timers (processSyncQueue cfg now st) = timers st.
Proof.
  unfold processSyncQueue. destruct (_ || _); [done|]. by destruct (_ && _).
Qed.

Lemma processSyncQueue_queue now st :
  syncQueue (processSyncQueue cfg now st) =
  if syncInProgress st then syncQueue st else [].
Proof.
  unfold processSyncQueue. destruct (syncInProgress st); simpl; [done|].
  case_bool_decide as Hlen; simpl.
  - by destruct (syncQueue st).
  - by destruct (_ && _).
Qed.

(** X1.  In every run of the sync queue, whatever is queued, forced,
    fired and settled in whatever order: the queued changes carry
    distinct change ids and each is registered in the dedup map under its
    id; at most one debounce timer is armed, and it is the one
    [syncTimeoutRef] names; and [syncInProgressRef] is set exactly while a
    flush waits for its awaited calls. *)
Theorem queue_run_invariant (now : Z) (ops : list Op) :
  let st := run cfg (initial now) ops in
  NoDup (ch_id <$> syncQueue st) ∧
  Forall (λ c, pendingChanges st !! ch_id c = Some c) (syncQueue st) ∧
  (length (flushTimers st) ≤ 1)%nat ∧
  Forall (λ t, syncTimeout st = Some (handle t)) (flushTimers st) ∧
  (syncInProgress st = true ↔ is_Some (inFlight st)).
Proof.
  intros st. pose proof (Inv_reachable now ops) as Hinv. fold st in Hinv.
  pose proof (flushTimers_at_most_one st Hinv) as Hone.
  destruct Hinv as [Hreg Hids _ _ Hdeb Hfl].
  split; [done|]. split; [by apply Forall_forall|]. split; [done|].
  split; [|done]. apply Forall_forall.
  intros t [Hf Ht]%list_elem_of_filter. apply Hdeb; [done|].
  unfold isFlush in Hf. by destruct (action t).
Qed.

(** X2.  Trailing debounce.  In every run, a [queueChange] that appends
    a change and stays below the batch size cancels the debounce timer
    that was armed and arms a new one with the full delay [debounceMs]:
    afterwards this is the only debounce timer. *)
Theorem queueChange_rearms_debounce
    (now0 : Z) (ops : list Op) (now now' : Z) (element : Element)
    (type : string) :
  let st := run cfg (initial now0) ops in
  pendingChanges st !! generateChangeId element now = None →
  (length (syncQueue st) + 1 < maxBatchSize cfg)%nat →
  flushTimers (queueChange cfg now now' element type st) =
    [mkTimer (nextHandle st) (debounceMs cfg) Flush].
Proof.
  intros st Hfree Hroom.
  pose proof (Inv_reachable now0 ops) as Hinv. fold st in Hinv.
  unfold queueChange.
  rewrite bool_decide_eq_false_2 by (rewrite Hfree; by intros [? ?]).
  rewrite bool_decide_eq_false_2 by (simpl; rewrite length_app; simpl; lia).
  unfold flushTimers, scheduleSync. simpl.
  rewrite filter_app, (flush_cleared st Hinv). done.
Qed.

(** X3.  [forceSync] cancels the debounce timer in every run: no
    debounce timer is armed afterwards.  Unless a flush is in flight it
    also empties the queue; while one is in flight the queue is left as
    it is, now without a timer to flush it. *)
Theorem forceSync_cancels_debounce (now0 : Z) (ops : list Op) (now : Z) :
  let st := run cfg (initial now0) ops in
  let st' := forceSync cfg now st in
  flushTimers st' = [] ∧
  syncQueue st' = (if syncInProgress st then syncQueue st else []).
Proof.
  intros st st'.
  pose proof (Inv_reachable now0 ops) as Hinv. fold st in Hinv.
  unfold st', forceSync, flushTimers.
  rewrite processSyncQueue_timers, processSyncQueue_queue. simpl.
  split; [by apply flush_cleared | done].
Qed.

(** X4.  A debounce timer that fires while a flush is in flight is used
    up without effect: the fired timer flushes nothing, and when the
    flush in flight then succeeds the changes queued in the meantime are
    still queued, no timer is armed to flush them and no flush is in
    progress. *)
Theorem debounce_timer_lost_in_flight
    (now0 : Z) (ops : list Op) (t : Timer) (now now' : Z) :
  let st := run cfg (initial now0) ops in
  syncInProgress st = true →
  t ∈ timers st →
  action t = Flush →
  let st' := settle cfg Delivered now' (fire cfg (handle t) now st) in
  syncQueue st' = syncQueue st ∧
  timers st' = clearTimeout (Some (handle t)) (timers st) ∧
  flushTimers st' = [] ∧
  syncInProgress st' = false ∧
  synced st' = synced st.
Proof.
  intros st Hprog Ht Hact st'.
  pose proof (Inv_reachable now0 ops) as Hinv. fold st in Hinv.
  pose proof (flush_cleared st Hinv) as Hclear.
  destruct Hinv as [_ _ Hnd _ Hdeb Hfl].
  assert (find (λ t', bool_decide (handle t' = handle t)) (timers st) = Some t)
    as Hfind.
  { destruct (find _ (timers st)) as [t'|] eqn:E.
    - apply find_some in E as [Hin Heq]. apply bool_decide_eq_true in Heq.
      f_equal. apply list_elem_of_In in Hin.
      apply (NoDup_fmap_1 handle) in Hnd as Hinj.
      apply list_elem_of_lookup in Hin as [i Hi].
      apply list_elem_of_lookup in Ht as [j Hj].
      assert (i = j) as ->.
      { apply (NoDup_lookup (handle <$> timers st) i j (handle t)); [done|..].
        - by rewrite list_lookup_fmap, Hi, <- Heq.
        - by rewrite list_lookup_fmap, Hj. }
      congruence.
    - exfalso. apply list_elem_of_In in Ht.
      pose proof (find_none _ _ E t Ht) as Hno. simpl in Hno.
      by rewrite bool_decide_eq_true_2 in Hno. }
  assert (fire cfg (handle t) now st =
          {| syncQueue := syncQueue st; syncTimeout := syncTimeout st;
             lastSync := lastSync st; pendingChanges := pendingChanges st;
             syncInProgress := syncInProgress st; inFlight := inFlight st;
             timers := clearTimeout (Some (handle t)) (timers st);
             nextHandle := nextHandle st; synced := synced st;
             broadcasts := broadcasts st |}) as Hfire.
  { unfold fire. rewrite Hfind, Hact. unfold processSyncQueue. simpl.
    by rewrite Hprog. }
  unfold st'. rewrite Hfire. unfold settle. simpl.
  destruct (proj1 Hfl Hprog) as [fl Hflight]. rewrite Hflight. simpl.
  repeat split. unfold flushTimers. simpl.
  rewrite (Hdeb t Ht Hact) in Hclear. exact Hclear.
Qed.

End QueueRunTheorems.

Lemma debounce_timer_lost_in_flight_witness :
  let t := CanvasSync.mkTimer 2 50 CanvasSync.Flush in
  let st' :=
    CanvasSync.settle q_cfg CanvasSync.Delivered 1200
      (CanvasSync.fire q_cfg 2 1110 x_in_flight) in
  CanvasSync.syncQueue st' = CanvasSync.syncQueue x_in_flight ∧
  CanvasSync.timers st' =
    CanvasSync.clearTimeout (Some 2%nat) (CanvasSync.timers x_in_flight) ∧
  QueueRun.flushTimers st' = [] ∧
  CanvasSync.syncInProgress st' = false ∧
  CanvasSync.synced st' = CanvasSync.synced x_in_flight.
Proof.
  apply (debounce_timer_lost_in_flight q_cfg 0 x_ops_in_flight
           (CanvasSync.mkTimer 2 50 CanvasSync.Flush) 1110 1200).
  - vm_compute. reflexivity.
  - vm_compute. apply list_elem_of_singleton. reflexivity.
  - reflexivity.
Defined.

Lemma queueChange_rearms_debounce_witness :
  QueueRun.flushTimers
    (CanvasSync.queueChange q_cfg 1070 1070 (q_other "e3") "update" x_in_flight)
  = [CanvasSync.mkTimer 3 50 CanvasSync.Flush].
Proof.
  apply (queueChange_rearms_debounce q_cfg 0 x_ops_in_flight 1070 1070
           (q_other "e3") "update").
  - vm_compute. reflexivity.
  - vm_compute. lia.
Defined.

Section PayloadFacts.
Import CanvasSync QueueRun.

Lemma firstsFrom_distinct {A K} `{EqDecision K} (key : A → K) l : ∀ pre,
  NoDup (key <$> (pre ++ l)) → firstsFrom key (pre ++ l) (length pre) l = l.
Proof.
  induction l as [|x l IH]; intros pre Hnd; [done|].
  rewrite firstsFrom_cons.
  rewrite fmap_app in Hnd. apply NoDup_app in Hnd as Hnd'.
  destruct Hnd' as (_ & Hdisj & _).
  rewrite decide_False.
  - simpl. f_equal. apply IH. by rewrite <- app_assoc, fmap_app.
  - intros Hin. apply (Hdisj _ Hin). simpl. apply elem_of_cons. by left.
Qed.

Lemma uniqueBy_distinct {A K} `{EqDecision K} (key : A → K) arr :
  NoDup (key <$> arr) → uniqueBy key arr = arr.
Proof. intros Hnd. by apply (firstsFrom_distinct key arr []). Qed.

(** X5.  When every element is queued as an update at most once and
    every id is queued for removal at most once, deduplication changes
    nothing: the payload's changed list is the queued update elements and
    its removed list the queued removal ids, both complete and in the
    order in which they were queued. *)
Theorem payload_complete_when_distinct (changes : list Change) :
  NoDup (id <$> (ch_element
                   <$> filter (λ c, ch_type c = "update") changes)) →
  NoDup ((λ c, id (ch_element c))
           <$> filter (λ c, ch_type c = "remove") changes) →
  changedOf changes =
    ch_element <$> filter (λ c, ch_type c = "update") changes ∧
  removedOf changes =
    (λ c, id (ch_element c)) <$> filter (λ c, ch_type c = "remove") changes.
Proof.
  intros Hc Hr. split.
  - by apply (uniqueBy_distinct id).
  - apply (uniqueBy_distinct (λ i : string, i)). by rewrite list_fmap_id.
Qed.

(** X6.  Whatever is queued, the payload of a flush has exactly one
    entry in its changed list for every element id queued as an update,
    and names every id queued for removal exactly once. *)
Theorem payload_one_entry_per_id (changes : list Change) :
  NoDup (id <$> changedOf changes) ∧
  Forall (λ c, ch_type c = "update" →
               id (ch_element c) ∈ id <$> changedOf changes) changes ∧
  NoDup (removedOf changes) ∧
  Forall (λ c, ch_type c = "remove" →
               id (ch_element c) ∈ removedOf changes) changes.
Proof.
  split; [apply (uniqueBy_NoDup id)|]. split; [|split].
  - apply Forall_forall. intros c Hc Hty.
    destruct (uniqueBy_covers id
                (ch_element <$> filter (λ c, ch_type c = "update") changes)
                (ch_element c)) as (el & Hel & Hid).
    { apply list_elem_of_fmap. exists c. split; [done|].
      by apply list_elem_of_filter. }
    apply list_elem_of_fmap. by exists el.
  - pose proof (uniqueBy_NoDup (λ i : string, i)
                  ((λ c, id (ch_element c))
                     <$> filter (λ c, ch_type c = "remove") changes)) as H.
    by rewrite list_fmap_id in H.
  - apply Forall_forall. intros c Hc Hty.
    destruct (uniqueBy_covers (λ i : string, i)
                ((λ c, id (ch_element c))
                   <$> filter (λ c, ch_type c = "remove") changes)
                (id (ch_element c))) as (i & Hi & <-); [|done].
    apply list_elem_of_fmap. exists c. split; [done|].
    by apply list_elem_of_filter.
Qed.

Lemma requeue_fold_queued changes : ∀ (st : State) c,
  (c ∈ changes ∧ pendingChanges st !! ch_id c = None) ∨
  (∃ c', c' ∈ syncQueue st ∧ ch_id c' = ch_id c) →
  ∃ c', c' ∈ syncQueue
          (fold_left
             (λ st change,
                if bool_decide (is_Some (pendingChanges st !! ch_id change))
                then st
                else with_queue (syncQueue st ++ [change])
                       (<[ch_id change := change]> (pendingChanges st)) st)
             changes st)
        ∧ ch_id c' = ch_id c.
Proof.
  induction changes as [|c0 rest IH]; intros st c H; simpl.
  - destruct H as [[H _]|H]; [by apply elem_of_nil in H | done].
  - apply IH. destruct H as [[Hin Hnone]|(c' & Hc' & Hid)].
    + case_bool_decide as Hp.
      * apply elem_of_cons in Hin as [->|Hin]; [|by left].
        rewrite Hnone in Hp. by destruct Hp.
      * simpl. destruct (decide (ch_id c0 = ch_id c)) as [Heq|Hne].
        -- right. exists c0. split; [|done].
           apply elem_of_app. right. by apply list_elem_of_singleton.
        -- apply elem_of_cons in Hin as [->|Hin]; [done|].
           left. split; [done|]. by rewrite lookup_insert_ne.
    + right. exists c'. split; [|done].
      case_bool_decide; [done|]. simpl. apply elem_of_app. by left.
Qed.

Lemma find_fresh_handle (ts : list Timer) (h : nat) (d : Z) (a : TimerAction) :
  (∀ t, t ∈ ts → (handle t < h)%nat) →
  find (λ t, bool_decide (handle t = h)) (ts ++ [mkTimer h d a]) =
    Some (mkTimer h d a).
Proof.
  induction ts as [|t ts IH]; intros Hfresh; simpl.
  - by rewrite bool_decide_eq_true_2.
  - rewrite bool_decide_eq_false_2.
    + apply IH. intros t' Ht'. apply Hfresh. apply elem_of_cons. by right.
    + specialize (Hfresh t ltac:(apply elem_of_cons; by left)). lia.
Qed.

(** X7.  When the awaited calls of a flush fail, in any run, the batch
    is not dropped: one retry timer holding exactly the batch is armed,
    and once that timer has run every change of the batch is registered
    as pending again and every change id of the batch that was not
    pending is back in the queue. *)
Theorem failed_batch_requeued
    (cfg : Config) (now0 : Z) (ops : list Op) (o : Outcome) (now now' : Z)
    (fl : InFlight) :
  let st := run cfg (initial now0) ops in
  o ≠ Delivered →
  inFlight st = Some fl →
  let st1 := settle cfg o now st in
  let st2 := fire cfg (nextHandle st) now' st1 in
  timers st1 =
    timers st ++
      [mkTimer (nextHandle st) (retryDelay st) (Requeue (if_changes fl))] ∧
  Forall (λ c, is_Some (pendingChanges st2 !! ch_id c)) (if_changes fl) ∧
  Forall (λ c, pendingChanges st !! ch_id c = None →
               ch_id c ∈ ch_id <$> syncQueue st2) (if_changes fl).
Proof.
  intros st Ho Hfl st1 st2.
  pose proof (Inv_reachable cfg now0 ops) as Hinv. fold st in Hinv.
  destruct (settle_failure_arms_retry cfg o now st fl Hfl Ho) as [Htimers _].
  fold st1 in Htimers.
  assert (pendingChanges st1 = pendingChanges st ∧
          syncQueue st1 = syncQueue st) as [Hp1 Hq1].
  { unfold st1, settle. rewrite Hfl. by destruct o. }
  assert (st2 = requeue cfg (if_changes fl)
            {| syncQueue := syncQueue st1; syncTimeout := syncTimeout st1;
               lastSync := lastSync st1; pendingChanges := pendingChanges st1;
               syncInProgress := syncInProgress st1; inFlight := inFlight st1;
               timers := clearTimeout (Some (nextHandle st)) (timers st1);
               nextHandle := nextHandle st1; synced := synced st1;
               broadcasts := broadcasts st1 |}) as ->.
  { unfold st2, fire. rewrite Htimers.
    assert (find (λ t, bool_decide (handle t = nextHandle st))
              (timers st ++
               [mkTimer (nextHandle st) (retryDelay st)
                  (Requeue (if_changes fl))]) =
            Some (mkTimer (nextHandle st) (retryDelay st)
                    (Requeue (if_changes fl)))) as ->; [|by rewrite <- Htimers].
    destruct Hinv as [_ _ _ Hfresh _ _]. by apply find_fresh_handle. }
  split; [done|]. split; apply Forall_forall; intros c Hc.
  - by apply requeue_all_pending.
  - intros Hnone. unfold requeue, scheduleSync. simpl.
    destruct (requeue_fold_queued (if_changes fl)
                {| syncQueue := syncQueue st1; syncTimeout := syncTimeout st1;
                   lastSync := lastSync st1;
                   pendingChanges := pendingChanges st1;
                   syncInProgress := syncInProgress st1;
                   inFlight := inFlight st1;
                   timers := clearTimeout (Some (nextHandle st)) (timers st1);
                   nextHandle := nextHandle st1; synced := synced st1;
                   broadcasts := broadcasts st1 |} c) as (c' & Hc' & Hid).
    { left. split; [done|]. simpl. by rewrite Hp1. }
    apply list_elem_of_fmap. by exists c'.
Qed.

End PayloadFacts.

Lemma payload_complete_when_distinct_witness :
  CanvasSync.changedOf x_three_changes = [q_elem 1 10; q_other "e2"] ∧
  CanvasSync.removedOf x_three_changes = ["e3"].
Proof.
  apply (payload_complete_when_distinct x_three_changes).
  - vm_compute. by apply (bool_decide_unpack _).
  - vm_compute. by apply (bool_decide_unpack _).
Defined.

Lemma failed_batch_requeued_witness :
  let st := QueueRun.run q_cfg (CanvasSync.initial 0) x_ops_flight in
  let fl := CanvasSync.mkInFlight (CanvasSync.syncQueue q_once)
              (CanvasSync.mkSyncPayload [q_elem 1 10] [] 1050
                 (Some "alice") (Some "n1")) in
  let st1 := CanvasSync.settle q_cfg CanvasSync.OnSyncThrew 1060 st in
  let st2 := CanvasSync.fire q_cfg (CanvasSync.nextHandle st) 1160 st1 in
  CanvasSync.timers st1 =
    CanvasSync.timers st ++
      [CanvasSync.mkTimer (CanvasSync.nextHandle st) (CanvasSync.retryDelay st)
         (CanvasSync.Requeue (CanvasSync.if_changes fl))] ∧
  Forall (λ c, is_Some (CanvasSync.pendingChanges st2 !! CanvasSync.ch_id c))
    (CanvasSync.if_changes fl) ∧
  Forall (λ c, CanvasSync.pendingChanges st !! CanvasSync.ch_id c = None →
               CanvasSync.ch_id c
                 ∈ CanvasSync.ch_id <$> CanvasSync.syncQueue st2)
    (CanvasSync.if_changes fl).
Proof.
  apply (failed_batch_requeued q_cfg 0 x_ops_flight CanvasSync.OnSyncThrew
           1060 1160).
  - discriminate.
  - vm_compute. reflexivity.
Defined.

(** ** Remote changes: order, identity and replacement *)

Section MapOrderFacts.
Context {V : Type}.
Implicit Types m : JsMap.t V.

Lemma set_absent k v m :
  JsMap.get k m = None → JsMap.set k v m = m ++ [(k, v)].
Proof.
  induction m as [|[k' v'] r IH]; simpl; [done|].
  destruct (decide (k = k')); [done|]. intros H. by rewrite IH.
Qed.

Lemma set_same k v m : JsMap.get k m = Some v → JsMap.set k v m = m.
Proof.
  induction m as [|[k' v'] r IH]; simpl; [done|].
  destruct (decide (k = k')) as [->|Hne]; intros H.
  - by inversion H.
  - by rewrite IH.
Qed.

Lemma delete_absent k m : JsMap.get k m = None → JsMap.delete k m = m.
Proof.
  induction m as [|[k' v'] r IH]; simpl; [done|].
  destruct (decide (k = k')); [done|]. intros H. by rewrite IH.
Qed.

Lemma get_app_None k m m' :
  JsMap.get k (m ++ m') =
  match JsMap.get k m with Some v => Some v | None => JsMap.get k m' end.
Proof.
  induction m as [|[k' v'] r IH]; simpl; [done|].
  by destruct (decide (k = k')).
Qed.

(** Two maps with the same keys in the same order and the same lookups
    are the same map. *)
Lemma map_ext m1 : ∀ m2,
  NoDup (JsMap.keys m1) → JsMap.keys m1 = JsMap.keys m2 →
  (∀ k, k ∈ JsMap.keys m1 → JsMap.get k m1 = JsMap.get k m2) → m1 = m2.
Proof.
  induction m1 as [|[k v] r IH]; intros [|[k2 v2] r2] Hnd Hk Hget;
    simpl in *; try done.
  inversion Hk; subst k2. apply NoDup_cons in Hnd as [Hnin Hnd].
  assert (v = v2) as <-.
  { specialize (Hget k ltac:(apply elem_of_cons; by left)).
    rewrite !decide_True in Hget by done. by inversion Hget. }
  f_equal. apply IH; [done | done |].
  intros k' Hin. specialize (Hget k' ltac:(apply elem_of_cons; by right)).
  rewrite !decide_False in Hget; [done | |]; intros ->; done.
Qed.

(** Writing under a key of [T] leaves the entries outside [T] as they
    are, in their order. *)
Lemma filter_set_touched (T : list string) k v m :
  k ∈ T →
  filter (λ kv : string * V, kv.1 ∉ T) (JsMap.set k v m) =
  filter (λ kv : string * V, kv.1 ∉ T) m.
Proof.
  intros Hk. unfold JsMap.t in *.
  induction m as [|[k' v'] r IH]; simpl.
  - by rewrite filter_cons_False by (simpl; auto).
  - destruct (decide (k = k')) as [->|Hne].
    + rewrite !filter_cons_False by (simpl; auto). done.
    + rewrite !filter_cons, IH. done.
Qed.

End MapOrderFacts.

Section RemoteOrderFacts.
Import BoxSync.

Lemma fold_set_fresh els : ∀ m : JsMap.t Element,
  NoDup (id <$> els) →
  (∀ e, e ∈ els → JsMap.get (id e) m = None) →
  fold_left (λ m el, JsMap.set (id el) el m) els m =
    m ++ ((λ e, (id e, e)) <$> els).
Proof.
  induction els as [|e rest IH]; intros m Hnd Hfresh; simpl.
  - by rewrite app_nil_r.
  - rewrite fmap_cons in Hnd. apply NoDup_cons in Hnd as [Hnin Hnd].
    rewrite set_absent by (apply Hfresh, elem_of_cons; by left).
    rewrite IH; [by rewrite <- app_assoc | done |].
    intros e' He'. rewrite get_app_None.
    rewrite (Hfresh e') by (apply elem_of_cons; by right).
    simpl. rewrite decide_False; [done|].
    intros Heq. apply Hnin. rewrite <- Heq.
    apply list_elem_of_fmap. by exists e'.
Qed.

(** Elements with distinct ids go through the map unchanged. *)
Lemma values_ofElements els :
  NoDup (id <$> els) → JsMap.values (ofElements els) = els.
Proof.
  intros Hnd. unfold ofElements. rewrite fold_set_fresh; [|done|done].
  simpl. unfold JsMap.values. rewrite <- list_fmap_compose.
  apply list_fmap_id.
Qed.

Lemma values_filed_ids m : filed m → id <$> JsMap.values m = JsMap.keys m.
Proof.
  intros [_ Hid]. induction m as [|[k v] r IH]; [done|].
  change (id v :: (id <$> JsMap.values r) = k :: JsMap.keys r).
  rewrite (Hid k v) by (apply elem_of_cons; by left).
  f_equal. apply IH. intros k' v' Hin. apply Hid. apply elem_of_cons.
  by right.
Qed.

(** A filed map is the map of its own values. *)
Lemma ofElements_values m : filed m → ofElements (JsMap.values m) = m.
Proof.
  intros Hm. unfold ofElements. rewrite fold_set_fresh.
  - simpl. destruct Hm as [_ Hid].
    induction m as [|[k v] r IH]; [done|].
    change ((id v, v) :: ((λ e, (id e, e)) <$> JsMap.values r) = (k, v) :: r).
    rewrite (Hid k v) by (apply elem_of_cons; by left).
    f_equal. apply IH. intros k' v' Hin. apply Hid. apply elem_of_cons.
    by right.
  - rewrite values_filed_ids by done. by destruct Hm.
  - done.
Qed.

Lemma values_filter_filed (T : list string) m :
  filed m →
  filter (λ el, id el ∉ T) (JsMap.values m) =
  JsMap.values (filter (λ kv : string * Element, kv.1 ∉ T) m).
Proof.
  intros [_ Hid]. induction m as [|[k v] r IH]; [done|].
  change (filter (λ el, id el ∉ T) (v :: JsMap.values r) =
          JsMap.values (filter (λ kv : string * Element, kv.1 ∉ T)
                          ((k, v) :: r))).
  assert (id v = k) as Hv by (apply Hid, elem_of_cons; by left).
  rewrite !filter_cons. simpl. rewrite Hv, IH.
  - by destruct (decide (k ∉ T)).
  - intros k' v' Hin. apply Hid. apply elem_of_cons. by right.
Qed.

Lemma untouched_applyEvent (T : list string) now m ev :
  elementId ev ∈ T →
  filter (λ kv : string * Element, kv.1 ∉ T) (applyEvent now m ev) =
  filter (λ kv : string * Element, kv.1 ∉ T) m.
Proof.
  intros Hin. unfold applyEvent.
  destruct (_ || _); [by apply filter_set_touched|].
  case_bool_decide; [|done].
  destruct (JsMap.get (elementId ev) m); [|done].
  by apply filter_set_touched.
Qed.

Lemma untouched_applyEvents (T : list string) clock evs : ∀ n m,
  (∀ ev, ev ∈ evs → elementId ev ∈ T) →
  filter (λ kv : string * Element, kv.1 ∉ T) (applyEvents clock n m evs) =
  filter (λ kv : string * Element, kv.1 ∉ T) m.
Proof.
  induction evs as [|ev rest IH]; intros n m HT; simpl; [done|].
  rewrite IH by (intros ev' H'; apply HT, elem_of_cons; by right).
  apply untouched_applyEvent. apply HT, elem_of_cons. by left.
Qed.

Lemma get_applyEvent_ne now i m ev :
  elementId ev ≠ i → JsMap.get i (applyEvent now m ev) = JsMap.get i m.
Proof.
  intros Hne. unfold applyEvent.
  destruct (_ || _); [by apply get_set_ne|].
  case_bool_decide; [|done].
  destruct (JsMap.get (elementId ev) m); [|done].
  by apply get_set_ne.
Qed.

Lemma get_applyEvents_ne clock i evs : ∀ n m,
  (∀ ev, ev ∈ evs → elementId ev ≠ i) →
  JsMap.get i (applyEvents clock n m evs) = JsMap.get i m.
Proof.
  induction evs as [|ev rest IH]; intros n m Hne; simpl; [done|].
  rewrite IH by (intros ev' H'; apply Hne, elem_of_cons; by right).
  apply get_applyEvent_ne. apply Hne, elem_of_cons. by left.
Qed.

Lemma NoDup_fmap_filter {A B} (f : A → B) (P : A → Prop)
    `{∀ x, Decision (P x)} (l : list A) :
  NoDup (f <$> l) → NoDup (f <$> filter P l).
Proof.
  induction l as [|x l IH]; [done|].
  rewrite fmap_cons, NoDup_cons. intros [Hnin Hnd].
  rewrite filter_cons. destruct (decide (P x)); [|by apply IH].
  rewrite fmap_cons. apply NoDup_cons. split; [|by apply IH].
  intros Hin. apply Hnin.
  apply list_elem_of_fmap in Hin as (y & -> & Hy).
  apply list_elem_of_filter in Hy as [_ Hy].
  apply list_elem_of_fmap. by exists y.
Qed.

Lemma NoDup_applyRemoteChanges clock cur evs :
  NoDup (id <$> applyRemoteChanges clock cur evs).
Proof.
  assert (filed (remoteElementMap clock cur evs)) as Hm.
  { apply filed_applyEvents, filed_ofElements. }
  unfold applyRemoteChanges. apply NoDup_fmap_filter.
  rewrite values_filed_ids by done. by destruct Hm.
Qed.

(** X8.  Whatever the local elements and the events are, the list
    [applyRemoteChanges] returns holds no element that is marked deleted
    and no two elements with the same id, even when the local list held
    duplicates. *)
Theorem applyRemoteChanges_distinct_live
    (clock : nat → Z) (cur : list Element) (evs : list SyncEvent) :
  NoDup (id <$> applyRemoteChanges clock cur evs) ∧
  Forall (λ el, Js.truthy (isDeleted (body el)) = false)
    (applyRemoteChanges clock cur evs).
Proof.
  split.
  - apply NoDup_applyRemoteChanges.
  - apply Forall_forall. intros el Hel.
    unfold applyRemoteChanges in Hel.
    apply list_elem_of_filter in Hel as [Hlive _].
    unfold live in Hlive. by destruct (Js.truthy _).
Qed.

(** X9.  When the local elements have distinct ids, the elements that no
    event of the batch names come back from [applyRemoteChanges] exactly
    as they were and in their local order, except that those marked
    deleted are left out; in particular an empty batch returns the live
    local elements. *)
Theorem applyRemoteChanges_untouched
    (clock : nat → Z) (cur : list Element) (evs : list SyncEvent) :
  NoDup (id <$> cur) →
  let untouched := λ el : Element, id el ∉ elementId <$> evs in
  filter untouched (applyRemoteChanges clock cur evs) =
    filter untouched (filter (λ el, live el) cur).
Proof.
  intros Hnd untouched.
  assert (filed (remoteElementMap clock cur evs)) as Hm.
  { apply filed_applyEvents, filed_ofElements. }
  unfold applyRemoteChanges.
  assert (∀ l : list Element,
            filter untouched (filter (λ el, live el) l) =
            filter (λ el, live el) (filter untouched l)) as Hcomm.
  { intros l. rewrite !list_filter_filter. apply list_filter_iff.
    intros x. tauto. }
  rewrite !Hcomm. f_equal. unfold untouched.
  rewrite (values_filter_filed (elementId <$> evs)) by done.
  unfold remoteElementMap. rewrite untouched_applyEvents.
  - rewrite <- values_filter_filed by apply filed_ofElements.
    by rewrite values_ofElements.
  - intros ev Hev. apply list_elem_of_fmap. by exists ev.
Qed.

Lemma remoteElementMap_last_update clock cur pre e post :
  changeType e = "create" ∨ changeType e = "update" →
  (∀ e', e' ∈ post → elementId e' ≠ elementId e) →
  JsMap.get (elementId e) (remoteElementMap clock cur (pre ++ e :: post)) =
    Some {| id := elementId e;
            body := with_lastModified
                      (Js.num_or (lastModified (boxProperties e))
                         (clock (length pre)))
                      (with_isDeleted false (boxProperties e)) |}.
Proof.
  intros Hcu Hpost.
  unfold remoteElementMap. rewrite applyEvents_app. simpl.
  rewrite get_applyEvents_ne by done.
  unfold applyEvent.
  assert (bool_decide (changeType e = "create")
          || bool_decide (changeType e = "update") = true) as ->.
  { apply orb_true_iff.
    destruct Hcu; [left|right]; by apply bool_decide_eq_true. }
  apply get_set_eq.
Qed.


End RemoteOrderFacts.

Lemma applyRemoteChanges_untouched_witness :
  filter (λ el : Element, id el ∉ BoxSync.elementId <$> [c8_late_update])
    (BoxSync.applyRemoteChanges x_clock x_local [c8_late_update]) =
  filter (λ el : Element, id el ∉ BoxSync.elementId <$> [c8_late_update])
    (filter (λ el, live el) x_local).
Proof.
  apply (applyRemoteChanges_untouched x_clock x_local [c8_late_update]).
  vm_compute. by apply (bool_decide_unpack _).
Defined.


(** ** The canvas content after a save and after an external update *)

Section SettleFacts.
Import BoxSync CanvasState.

Lemma filter_none {A} (P : A → Prop) `{∀ x, Decision (P x)} (l : list A) :
  (∀ x, x ∈ l → ¬ P x) → filter P l = [].
Proof.
  induction l as [|x l IH]; intros Hno; [done|].
  rewrite filter_cons_False by (apply Hno, elem_of_cons; by left).
  apply IH. intros y Hy. apply Hno, elem_of_cons. by right.
Qed.

Lemma lastWithId_NoDup els e :
  NoDup (id <$> els) → e ∈ els → lastWithId (id e) els = Some e.
Proof.
  induction els as [|x rest IH]; intros Hnd Hin.
  - by apply elem_of_nil in Hin.
  - rewrite fmap_cons in Hnd. apply NoDup_cons in Hnd as [Hnin Hnd].
    rewrite lastWithId_cons.
    apply elem_of_cons in Hin as [->|Hin].
    + rewrite decide_True by done.
      assert (lastWithId (id x) rest = None) as ->; [|done].
      unfold lastWithId.
      rewrite filter_none; [done|].
      intros y Hy Heq. apply Hnin. rewrite <- Heq.
      apply list_elem_of_fmap. by exists y.
    + rewrite decide_False; [by apply IH|].
      intros Heq. apply Hnin. rewrite Heq.
      apply list_elem_of_fmap. by exists e.
Qed.

(** Against the map filled from a list with distinct ids, the list
    itself shows no change. *)
Lemma detectChanges_same els :
  NoDup (id <$> els) →
  detectChanges (initializeElementMap els) els = mkChangeSet [] [] [].
Proof.
  intros Hnd.
  destruct (detectChanges_spec (initializeElementMap els) els)
    as (Ha & Hu & Hr).
  assert (∀ e, e ∈ els →
            JsMap.get (id e) (initializeElementMap els) = Some (store e))
    as Hget.
  { intros e He. unfold initializeElementMap.
    rewrite (get_fold_set store). by rewrite lastWithId_NoDup. }
  rewrite filter_none in Ha.
  2:{ intros e He. unfold isAdded. rewrite Hget by done. by intros []. }
  rewrite filter_none in Hu.
  2:{ intros e He. unfold isUpdated. rewrite Hget by done. simpl.
      rewrite bool_decide_eq_false_2; [by intros [] | by intros H]. }
  rewrite filter_none in Hr.
  2:{ intros k Hk Hnin. apply Hnin.
      apply has_keys in Hk. unfold initializeElementMap in Hk.
      apply (has_fold_set store) in Hk as [Hk|Hk]; [done|done]. }
  destruct (detectChanges _ _) as [u r a]. simpl in *. by subst.
Qed.

Lemma updateCanvasContent_same cfg clock els fs st :
  NoDup (id <$> els) →
  elementMap st = initializeElementMap els →
  updateCanvasContent cfg clock els fs st = (st, None).
Proof.
  intros Hnd Hm. unfold updateCanvasContent.
  rewrite Hm, detectChanges_same by done. done.
Qed.

(** X11.  Saving the same elements again changes nothing: after any call
    of [updateCanvasContent] with elements of distinct ids, a further call
    with the same elements reports no change and leaves the content, its
    version, the element map and the sync queue as they are, whatever
    files it is given; files passed along with unchanged elements are
    not stored. *)
Theorem updateCanvasContent_settles
    (cfg : CanvasSync.Config) (clock clock' : nat → Z * Z)
    (els : list Element) (fs fs' : Files) (st : State) :
  NoDup (id <$> els) →
  let st1 := fst (updateCanvasContent cfg clock els fs st) in
  updateCanvasContent cfg clock' els fs' st1 = (st1, None).
Proof.
  intros Hnd st1.
  destruct (snd (updateCanvasContent cfg clock els fs st)) eqn:Hsnd.
  - apply updateCanvasContent_same; [done|].
    unfold st1, updateCanvasContent in *.
    destruct (_ && _); [discriminate|].
    destruct (queueAll cfg clock 0 _ _ _) as [s1 i1].
    destruct (queueAll cfg clock i1 _ _ _) as [s2 i2].
    destruct (queueAll cfg clock i2 _ _ _) as [s3 i3]. done.
  - assert (st1 = st) as ->.
    { unfold st1, updateCanvasContent in *.
      destruct (_ && _); [done|].
      destruct (queueAll cfg clock 0 _ _ _) as [s1 i1].
      destruct (queueAll cfg clock i1 _ _ _) as [s2 i2].
      destruct (queueAll cfg clock i2 _ _ _) as [s3 i3]. discriminate. }
    unfold updateCanvasContent in *.
    destruct (_ && _); [done|].
    destruct (queueAll cfg clock 0 _ _ _) as [s1 i1].
    destruct (queueAll cfg clock i1 _ _ _) as [s2 i2].
    destruct (queueAll cfg clock i2 _ _ _) as [s3 i3]. discriminate.
Qed.

(** X12.  An external update is not echoed: when the elements that
    [applyExternalUpdate] returns are handed to [updateCanvasContent],
    as the editor does after it has drawn them, no change is detected, so
    nothing is queued for the network and the state stays as it is. *)
Theorem external_update_not_echoed
    (cfg : CanvasSync.Config) (clock : nat → Z * Z)
    (updatePayload : UpdatePayload) (fs : Files) (st : State) :
  let r := applyExternalUpdate updatePayload st in
  updateCanvasContent cfg clock (fst (snd r)) fs (fst r) = (fst r, None).
Proof.
  intros r. apply updateCanvasContent_same; [|done].
  unfold r. simpl.
  rewrite values_filed_ids by apply filed_externalElementMap.
  by destruct (filed_externalElementMap
                 (elements (canvasContent st))
                 (default [] (up_removed updatePayload))
                 (default [] (up_changed updatePayload))).
Qed.

Lemma has_set {V} k k' (v : V) m :
  JsMap.has k' m = true → JsMap.has k' (JsMap.set k v m) = true.
Proof.
  unfold JsMap.has. rewrite get_set. by destruct (decide (k = k')).
Qed.

Lemma keys_fold_set_present els : ∀ m : JsMap.t Element,
  (∀ e, e ∈ els → JsMap.has (id e) m = true) →
  JsMap.keys (fold_left (λ m e, JsMap.set (id e) e m) els m) = JsMap.keys m.
Proof.
  induction els as [|e rest IH]; intros m Hin; simpl; [done|].
  rewrite IH.
  - rewrite keys_set. by rewrite Hin by (apply elem_of_cons; by left).
  - intros e' He'. apply has_set. apply Hin, elem_of_cons. by right.
Qed.

Lemma fold_delete_absent ks : ∀ m : JsMap.t Element,
  (∀ k, k ∈ ks → JsMap.get k m = None) →
  fold_left (λ m k, JsMap.delete k m) ks m = m.
Proof.
  induction ks as [|k rest IH]; intros m Hno; simpl; [done|].
  rewrite delete_absent by (apply Hno, elem_of_cons; by left).
  apply IH. intros k' Hk'. apply Hno, elem_of_cons. by right.
Qed.

(** X13.  Delivering an external update a second time is harmless when
    no id is both removed and changed by it: the second application
    returns the same elements in the same order and the same files as the
    first; only the content version is counted up once more. *)
Theorem external_update_redelivered
    (updatePayload : UpdatePayload) (st : State) :
  (∀ e, e ∈ default [] (up_changed updatePayload) →
        id e ∉ default [] (up_removed updatePayload)) →
  let once := applyExternalUpdate updatePayload st in
  let twice := applyExternalUpdate updatePayload (fst once) in
  snd twice = snd once ∧
  elementMap (fst twice) = elementMap (fst once) ∧
  contentVersion (fst twice) = S (contentVersion (fst once)).
Proof.
  intros Hdisj once twice.
  set (changed := default [] (up_changed updatePayload)) in *.
  set (removed := default [] (up_removed updatePayload)) in *.
  set (m := externalElementMap (elements (canvasContent st)) removed changed).
  assert (filed m) as Hm by apply filed_externalElementMap.
  assert (externalElementMap (JsMap.values m) removed changed = m) as Hfix.
  { unfold externalElementMap at 1.
    change (fold_left (λ m e, JsMap.set (id e) e m) (JsMap.values m)
              JsMap.empty) with (BoxSync.ofElements (JsMap.values m)).
    rewrite ofElements_values by done.
    assert (∀ e, e ∈ changed → JsMap.get (id e) m = lastWithId (id e) changed
                                ∧ is_Some (lastWithId (id e) changed)) as Hch.
    { intros e He. unfold m, externalElementMap.
      rewrite (get_fold_set (λ e, e)).
      assert (is_Some (lastWithId (id e) changed)) as [e' He'].
      { unfold lastWithId.
        destruct (last (filter (λ e0 : Element, id e0 = id e) changed))
          eqn:E; [by eexists|].
        apply last_None in E.
        assert (e ∈ filter (λ e0 : Element, id e0 = id e) changed) as Hin
          by (by apply list_elem_of_filter).
        rewrite E in Hin. by apply elem_of_nil in Hin. }
      rewrite He'. split; [done | by eexists]. }
    rewrite fold_delete_absent.
    2:{ intros k Hk. unfold m, externalElementMap.
        rewrite (get_fold_set (λ e, e)).
        assert (lastWithId k changed = None) as ->.
        { unfold lastWithId. rewrite filter_none; [done|].
          intros e He Heq. apply (Hdisj e He). by rewrite Heq. }
        rewrite get_fold_delete. by rewrite decide_True. }
    symmetry. apply map_ext.
    - by destruct Hm.
    - symmetry. apply keys_fold_set_present.
      intros e He. unfold JsMap.has.
      destruct (Hch e He) as [-> [e' ->]]. done.
    - intros k _. rewrite (get_fold_set (λ e, e)).
      destruct (lastWithId k changed) as [e'|] eqn:E; [|done].
      assert (e' ∈ changed ∧ id e' = k) as [He' <-].
      { unfold lastWithId in E. apply last_Some in E as [l' E].
        assert (e' ∈ filter (λ e0 : Element, id e0 = k) changed) as Hin.
        { rewrite E. apply elem_of_app. right.
          by apply list_elem_of_singleton. }
        by apply list_elem_of_filter in Hin as [? ?]. }
      destruct (Hch e' He') as [-> _]. done. }
  unfold twice, once, applyExternalUpdate. simpl.
  fold changed removed. fold m. rewrite Hfix. done.
Qed.

End SettleFacts.

Lemma updateCanvasContent_settles_witness :
  let st1 := fst (CanvasState.updateCanvasContent q_cfg c9_clock
                    [c9_before; q_elem 1 10] [] (CanvasState.initial 0)) in
  CanvasState.updateCanvasContent q_cfg x_later_clock
    [c9_before; q_elem 1 10] x_files st1 = (st1, None).
Proof.
  apply (updateCanvasContent_settles q_cfg c9_clock x_later_clock
           [c9_before; q_elem 1 10] [] x_files (CanvasState.initial 0)).
  vm_compute. by apply (bool_decide_unpack _).
Defined.

Lemma external_update_redelivered_witness :
  let once := CanvasState.applyExternalUpdate c7_payload c7_state in
  let twice := CanvasState.applyExternalUpdate c7_payload (fst once) in
  snd twice = snd once ∧
  CanvasState.elementMap (fst twice) = CanvasState.elementMap (fst once) ∧
  CanvasState.contentVersion (fst twice) =
    S (CanvasState.contentVersion (fst once)).
Proof.
  apply (external_update_redelivered c7_payload c7_state).
  intros e He. vm_compute in He.
  apply list_elem_of_singleton in He. subst e. vm_compute.
  intros H. apply list_elem_of_singleton in H. discriminate.
Defined.

(** ** The channel after a connection error *)

Section ChannelRunFacts.
Import SyncChannel.
Variable cfg : Config.


End ChannelRunFacts.


(** ** Tool changes in quick succession *)

Section ToolRunFacts.
Import CanvasTools ToolRun.

Lemma run_burst_from (lo : Z) ops : ∀ t,
  lo ≤ lastToolChange (toolStateRef t) →
  Forall (λ op : Z * Op, lo ≤ op.1 < lo + 50) ops →
  selectedTool (run t ops) = selectedTool t ∧
  toolOptions (run t ops) = toolOptions t.
Proof.
  induction ops as [|[now op] rest IH]; intros t Hlo Hall; [done|].
  apply Forall_cons in Hall as [[Hge Hlt] Hall]. simpl in Hge, Hlt.
  change (run t ((now, op) :: rest)) with (run (exec t (now, op)) rest).
  assert (selectedTool (exec t (now, op)) = selectedTool t ∧
          toolOptions (exec t (now, op)) = toolOptions t ∧
          lo ≤ lastToolChange (toolStateRef (exec t (now, op))))
    as (Hs & Ho & Hlo').
  { destruct op; unfold exec, resetTool, changeTool, saveEffect; simpl.
    - rewrite bool_decide_eq_true_2 by lia. done.
    - rewrite bool_decide_eq_true_2 by lia. done.
    - done. }
  destruct (IH (exec t (now, op)) Hlo' Hall) as [Hs' Ho'].
  by rewrite Hs', Ho', Hs, Ho.
Qed.

(** X15.  For 50 ms after a tool change no further change is taken:
    every call of [changeTool] or [resetTool] made less than 50 ms after
    the time recorded in the tool ref returns without selecting
    anything, also when the effect that saves the tool state runs in
    between, so the selected tool and its options stay as they were and
    the requests are lost. *)
Theorem tool_changes_dropped_in_burst (t : Tools) (ops : list (Z * Op)) :
  let changedAt := lastToolChange (toolStateRef t) in
  Forall (λ op : Z * Op, changedAt ≤ op.1 < changedAt + 50) ops →
  selectedTool (run t ops) = selectedTool t ∧
  toolOptions (run t ops) = toolOptions t.
Proof. intros changedAt Hall. by apply (run_burst_from changedAt). Qed.

End ToolRunFacts.

Lemma tool_changes_dropped_in_burst_witness :
  CanvasTools.selectedTool (ToolRun.run x_tools x_tool_burst) = "rectangle" ∧
  CanvasTools.toolOptions (ToolRun.run x_tools x_tool_burst) = [].
Proof.
  apply (tool_changes_dropped_in_burst x_tools x_tool_burst).
  vm_compute. repeat constructor; discriminate.
Defined.

(** ** From the sender's events to the receiver's elements *)

Section PropagationFacts.
Import BoxSync Propagator Propagation.

Lemma find_id_first (els : list Element) (i : string) :
  (∃ loc, loc ∈ els ∧ id loc = i) →
  ∃ loc, find (λ el, bool_decide (id el = i)) els = Some loc ∧
         loc ∈ els ∧ id loc = i.
Proof.
  intros (loc & Hin & Hid).
  destruct (find (λ el, bool_decide (id el = i)) els) as [l|] eqn:E.
  - exists l. apply find_some in E as [Hl Hb].
    apply bool_decide_eq_true in Hb.
    split; [done|]. split; [by apply list_elem_of_In | done].
  - apply list_elem_of_In in Hin.
    pose proof (find_none _ _ E loc Hin) as Hb. simpl in Hb.
    apply bool_decide_eq_false in Hb. done.
Qed.

Lemma find_id_NoDup (els : list Element) (x : Element) :
  NoDup (id <$> els) → x ∈ els →
  find (λ el, bool_decide (id el = id x)) els = Some x.
Proof.
  induction els as [|y rest IH]; intros Hnd Hin.
  - by apply elem_of_nil in Hin.
  - rewrite fmap_cons in Hnd. apply NoDup_cons in Hnd as [Hnin Hnd].
    simpl. apply elem_of_cons in Hin as [->|Hin].
    + by rewrite bool_decide_eq_true_2.
    + rewrite bool_decide_eq_false_2; [by apply IH|].
      intros Heq. apply Hnin. rewrite Heq.
      apply list_elem_of_fmap. by exists x.
Qed.

Lemma passes_older enable els ev :
  enable = true →
  changeType ev ≠ "delete" →
  (∃ loc, loc ∈ els ∧ id loc = elementId ev) →
  (∀ loc, loc ∈ els → id loc = elementId ev →
          Js.or_zero (timestamp ev) ≤ Js.or_zero (lastModified (body loc))) →
  passes enable els ev = false.
Proof.
  intros -> Hnd Hex Hall. unfold passes.
  rewrite bool_decide_eq_false_2 by done.
  destruct (find_id_first els (elementId ev) Hex) as (loc & -> & Hin & Hid).
  unfold resolveConflicts. simpl.
  rewrite bool_decide_eq_false_2; [done|].
  specialize (Hall loc Hin Hid). lia.
Qed.

(** X16.  With conflict resolution on, a batch in which every event is a
    create or update of an element that is in the local list, and carries
    a timestamp that is not later than the [lastModified] of the local
    elements of that id, is not delivered at all: the remote-update
    callback is not called and the local elements stay as they are.  A
    missing timestamp or [lastModified] counts as 0, and on equal times
    the local element wins. *)
Theorem stale_batch_not_delivered
    (hasOnRemoteUpdate : bool) (clock : nat → Z)
    (canvasElements : list Element) (events : list SyncEvent) :
  (∀ ev, ev ∈ events →
     changeType ev ≠ "delete" ∧
     (∃ loc, loc ∈ canvasElements ∧ id loc = elementId ev) ∧
     ∀ loc, loc ∈ canvasElements → id loc = elementId ev →
       Js.or_zero (timestamp ev) ≤ Js.or_zero (lastModified (body loc))) →
  handleRemoteUpdate hasOnRemoteUpdate true canvasElements events = None ∧
  deliver true clock canvasElements events = canvasElements.
Proof.
  intros Hall.
  assert (resolvedEvents true canvasElements events = []) as Hres.
  { unfold resolvedEvents. apply filter_none. intros ev Hev.
    destruct (Hall ev Hev) as (Hnd & Hex & Hle).
    rewrite passes_older; [by intros [] | done | done | done | done]. }
  unfold deliver, handleRemoteUpdate. rewrite Hres. simpl.
  by destruct hasOnRemoteUpdate.
Qed.

Lemma syncEventsOf_split userId noteId sendClock before el after kind :
  ∃ pre post,
    syncEventsOf userId noteId sendClock (before ++ el :: after) kind =
      pre ++ {| elementId := id el; changeType := kind;
                boxProperties := boxPropertiesOf el;
                timestamp := Some (sendClock (length before));
                ev_userId := userId; ev_noteId := noteId |} :: post ∧
    length pre = length before ∧
    ∀ e', e' ∈ post → ∃ el', el' ∈ after ∧ elementId e' = id el'.
Proof.
  unfold syncEventsOf. rewrite imap_app, imap_cons.
  eexists _, _. split; [|split].
  - rewrite Nat.add_0_r. reflexivity.
  - by rewrite length_imap.
  - intros e' He'. apply elem_of_lookup_imap in He' as (i & el' & -> & Hl).
    exists el'. split; [|done]. by apply list_elem_of_lookup_2 in Hl.
Qed.

Lemma get_propagated clock cur userId noteId sendClock before el after kind :
  kind = "create" ∨ kind = "update" →
  (∀ el', el' ∈ after → id el' ≠ id el) →
  JsMap.get (id el)
    (remoteElementMap clock cur
       (syncEventsOf userId noteId sendClock (before ++ el :: after) kind)) =
  Some {| id := id el;
          body := with_lastModified (clock (length before))
                    (with_isDeleted false (boxPropertiesOf el)) |}.
Proof.
  intros Hkind Hafter.
  destruct (syncEventsOf_split userId noteId sendClock before el after kind)
    as (pre & post & -> & Hlen & Hpost).
  match goal with
  | |- context [pre ++ ?e :: post] =>
      pose proof (remoteElementMap_last_update clock cur pre e post) as H
  end.
  simpl in H. rewrite H; [by rewrite Hlen | done |].
  intros e' He'. destruct (Hpost e' He') as (el' & Hel' & ->).
  by apply Hafter.
Qed.

(** X17.  What arrives of a box: an element sent as an event of
    [propagateChanges] and applied by [applyRemoteChanges] is in the
    receiver's list with the nine drawing properties it had, marked not
    deleted and stamped with the receiver's time of handling.  Its type,
    version and author are not sent, so the received element has none,
    whatever the receiver held under that id before. *)
Theorem propagated_box_round_trip
    (userId noteId : option string) (sendClock clock : nat → Z)
    (cur before : list Element) (el : Element) (after : list Element)
    (kind : string) :
  kind = "create" ∨ kind = "update" →
  (∀ el', el' ∈ after → id el' ≠ id el) →
  {| id := id el;
     body := {| version := None; isDeleted := Some false;
                lastModified := Some (clock (length before));
                modifiedBy := None; etype := None;
                geometry := geometry (boxPropertiesOf el) |} |}
    ∈ applyRemoteChanges clock cur
        (syncEventsOf userId noteId sendClock (before ++ el :: after) kind).
Proof.
  intros Hkind Hafter. apply elem_of_applyRemoteChanges. split; [|done].
  simpl. by rewrite (get_propagated clock cur userId noteId sendClock
                       before el after kind).
Qed.

(** X18.  Once a propagated update of an element has been applied, the
    element carries the receiver's time of handling as [lastModified].
    With conflict resolution on, a following create or update event for
    that element whose timestamp is not later than that time is filtered
    out, also when it was sent after the first one: an edit made before
    the receiver handled the previous one is not delivered. *)
Theorem update_sent_before_handling_dropped
    (userId noteId : option string) (sendClock clock : nat → Z)
    (cur before : list Element) (el : Element) (after : list Element)
    (kind : string) (next : SyncEvent) :
  kind = "create" ∨ kind = "update" →
  (∀ el', el' ∈ after → id el' ≠ id el) →
  elementId next = id el →
  changeType next ≠ "delete" →
  Js.or_zero (timestamp next) ≤ clock (length before) →
  let received :=
    applyRemoteChanges clock cur
      (syncEventsOf userId noteId sendClock (before ++ el :: after) kind) in
  passes true received next = false ∧
  handleRemoteUpdate true true received [next] = None.
Proof.
  intros Hkind Hafter Hid Hnd Hle received.
  assert (passes true received next = false) as Hpass.
  { set (arrived :=
           {| id := id el;
              body := with_lastModified (clock (length before))
                        (with_isDeleted false (boxPropertiesOf el)) |}).
    assert (arrived ∈ received) as Hin.
    { apply elem_of_applyRemoteChanges. split; [|done].
      by apply (get_propagated clock cur userId noteId sendClock before el
                  after kind). }
    unfold passes. rewrite bool_decide_eq_false_2 by done.
    rewrite Hid.
    change (id el) with (id arrived).
    rewrite find_id_NoDup; [|apply NoDup_applyRemoteChanges|done].
    unfold resolveConflicts. simpl.
    rewrite bool_decide_eq_false_2; [done | lia]. }
  split; [done|].
  unfold handleRemoteUpdate, resolvedEvents. simpl.
  rewrite filter_cons_False by (rewrite Hpass; by intros []).
  done.
Qed.

End PropagationFacts.

Lemma stale_batch_not_delivered_witness :
  Propagator.handleRemoteUpdate true true [c10_local] [c8_late_update] = None ∧
  Propagator.deliver true x_clock [c10_local] [c8_late_update] = [c10_local].
Proof.
  apply (stale_batch_not_delivered true x_clock [c10_local] [c8_late_update]).
  intros ev Hev. apply list_elem_of_singleton in Hev. subst ev.
  split; [discriminate|]. split.
  - exists c10_local. split; [by apply list_elem_of_singleton | reflexivity].
  - intros loc Hloc _. apply list_elem_of_singleton in Hloc. subst loc.
    vm_compute. discriminate.
Defined.

Lemma propagated_box_round_trip_witness :
  {| id := "e1";
     body := {| version := None; isDeleted := Some false;
                lastModified := Some 2000;
                modifiedBy := None; etype := None;
                geometry := [("x", 42)] |} |}
    ∈ BoxSync.applyRemoteChanges x_clock x_local
        (Propagation.syncEventsOf (Some "bob") (Some "n1") x_bob_clock
           ([] ++ c10_local :: []) "update").
Proof.
  apply (propagated_box_round_trip (Some "bob") (Some "n1") x_bob_clock
           x_clock x_local [] c10_local [] "update").
  - right. reflexivity.
  - intros el' H. by apply elem_of_nil in H.
Defined.

Lemma update_sent_before_handling_dropped_witness :
  let received :=
    BoxSync.applyRemoteChanges x_clock x_local
      (Propagation.syncEventsOf (Some "bob") (Some "n1") x_bob_clock
         ([] ++ c10_local :: []) "update") in
  Propagator.passes true received x_bob_next = false ∧
  Propagator.handleRemoteUpdate true true received [x_bob_next] = None.
Proof.
  apply (update_sent_before_handling_dropped (Some "bob") (Some "n1")
           x_bob_clock x_clock x_local [] c10_local [] "update" x_bob_next).
  - right. reflexivity.
  - intros el' H. by apply elem_of_nil in H.
  - reflexivity.
  - discriminate.
  - vm_compute. discriminate.
Defined.

(** ** Sending needs a live subscription *)

Section ChannelSendFacts.
Import SyncChannel ChannelSend.
Variable cfg : Config.





End ChannelSendFacts.

